(** * koishi.py : trajectory samplers

    A shallow embedding of [EllipticTrajectory], [InterpolatedTrajectory]
    and the sampling loop of [main] from [src/koishi.py].

    Numbers.  The Python code computes on [float]; the [int] literals of
    the waypoint lists are converted to [float] as soon as they meet one
    ([self.time] starts as [0.0]).  The code is embedded once, over an
    abstract number type [F] with the operations the source uses (class
    [Num]), and read at three instances:

    - [Num_float] : IEEE binary64 with round-to-nearest-even, which is what
      a Python [float] is.  Concrete runs of the program are evaluated
      here.
    - [Num_Q] : exact rationals.  The properties of the interpolator that
      hold of the algorithm but not of its rounded arithmetic (closed loop,
      landing after a run of zero durations, termination of the overshoot
      loop) are proved here.
    - [Num_R] : real numbers, with the real [sin], [cos] and [PI].  The
      geometric properties of the elliptic sampler are proved here.

    What depends on no arithmetic law (the constructor, the skip loop, the
    shape of [get_delta], the sampling loop) is proved for every [F].

    Errors of [math].  [math.sin] and [math.cos] raise [ValueError] on an
    infinite argument.  [EllipticTrajectory] gives the values its methods
    compute when these calls return; [EllipticCalls] gives the same
    methods as calls, with the exception, and the two are related by
    [elliptic_call_get_next_position].  Over the reals nothing is infinite
    and the calls always return.

    Control.  A [while] loop is a [Fixpoint] over a fuel argument and
    returns [OutOfFuel] when the fuel does not suffice; a Python exception
    is the result [Raise e]. *)

From Stdlib Require Import List Bool Arith ZArith Lia.
From Stdlib Require Import QArith Qround Lqa.
From Stdlib Require Import Reals Lra.
From Stdlib Require Import Floats.
Import ListNotations.

Set Implicit Arguments.

(** ** Results of a call *)

Inductive exn : Type :=
| ValueError
| IndexError
| ZeroDivisionError.

Inductive outcome (A : Type) : Type :=
| Ret (a : A)
| Raise (e : exn)
| OutOfFuel.

Arguments Ret {A} a.
Arguments Raise {A} e.
Arguments OutOfFuel {A}.

Definition bind {A B : Type} (c : outcome A) (k : A -> outcome B) : outcome B :=
  match c with
  | Ret a => k a
  | Raise e => Raise e
  | OutOfFuel => OutOfFuel
  end.

Declare Scope py_scope.
Delimit Scope py_scope with py.

Notation "x <- c ;; k" := (bind c (fun x => k))
  (at level 61, c at next level, right associativity) : py_scope.
Notation "' p <- c ;; k" := (bind c (fun x => let 'p := x in k))
  (at level 61, p pattern, c at next level, right associativity) : py_scope.

(** [l[i]] for a list or a tuple and a non-negative index. *)
Definition getitem {A : Type} (l : list A) (i : nat) : outcome A :=
  match nth_error l i with
  | Some a => Ret a
  | None => Raise IndexError
  end.

(** [l[i][j]] *)
Definition getitem2 {A : Type} (l : list (list A)) (i j : nat) : outcome A :=
  bind (getitem l i) (fun row => getitem row j).

(** ** Numbers *)

Class Num (F : Type) : Type := {
  of_int : Z -> F;          (* an [int] literal used as a number *)
  add : F -> F -> F;
  sub : F -> F -> F;
  mul : F -> F -> F;
  div : F -> F -> F;        (* the quotient when the divisor is not zero *)
  eqb : F -> F -> bool;     (* [==] *)
  ltb : F -> F -> bool;     (* [<]  *)
  leb : F -> F -> bool      (* [<=] *)
}.

Infix "+" := add : py_scope.
Infix "-" := sub : py_scope.
Infix "*" := mul : py_scope.
Infix "==" := eqb (at level 70, no associativity) : py_scope.
Notation "a != b" := (negb (eqb a b)) (at level 70, no associativity) : py_scope.
Notation "a < b" := (ltb a b) : py_scope.
Notation "a <= b" := (leb a b) : py_scope.
Notation "a >= b" := (leb b a) : py_scope.

(** [a / b] on floats: Python raises [ZeroDivisionError] on a zero divisor. *)
Definition truediv {F : Type} `{Num F} (a b : F) : outcome F :=
  if eqb b (of_int 0) then Raise ZeroDivisionError else Ret (div a b).

(** The functions of [math] that the source imports.  [sin x] and
    [cos x] are the values that [math.sin(x)] and [math.cos(x)] return.
    The calls themselves raise [ValueError] ("math domain error") when
    the argument is infinite, and only then: a NaN is answered by a NaN.
    [sin_call] and [cos_call] are the calls, with [isinf] the test
    [math.isinf] of the argument. *)
Module math.
Class Trig (F : Type) : Type := {
  sin : F -> F;
  cos : F -> F;
  PI : F
}.

Class Inf (F : Type) : Type := {
  isinf : F -> bool
}.

Definition sin_call {F : Type} `{Trig F} `{Inf F} (x : F) : outcome F :=
  if isinf x then Raise ValueError else Ret (sin x).

Definition cos_call {F : Type} `{Trig F} `{Inf F} (x : F) : outcome F :=
  if isinf x then Raise ValueError else Ret (cos x).
End math.

(** *** binary64 *)

Definition float_of_int (z : Z) : float :=
  match z with
  | Z0 => PrimFloat.zero
  | Zpos _ => PrimFloat.of_uint63 (Uint63.of_Z z)
  | Zneg _ => PrimFloat.opp (PrimFloat.of_uint63 (Uint63.of_Z (Z.opp z)))
  end.

#[export] Instance Num_float : Num float := {
  of_int := float_of_int;
  add := PrimFloat.add;
  sub := PrimFloat.sub;
  mul := PrimFloat.mul;
  div := PrimFloat.div;
  eqb := PrimFloat.eqb;
  ltb := PrimFloat.ltb;
  leb := PrimFloat.leb
}.

#[export] Instance Inf_float : math.Inf float := {
  math.isinf := PrimFloat.is_infinity
}.

(** [sin] and [cos] of the C library are not defined here: a binary64
    instance of [math.Trig] is given for any two functions [libm_sin] and
    [libm_cos]; [math.pi] is [0x1.921fb54442d18p+1]. *)
Definition Trig_float (libm_sin libm_cos : float -> float) : math.Trig float := {|
  math.sin := libm_sin;
  math.cos := libm_cos;
  math.PI := 0x1.921fb54442d18p+1%float
|}.

(** *** exact rationals *)

#[export] Instance Num_Q : Num Q := {
  of_int := inject_Z;
  add := Qplus;
  sub := Qminus;
  mul := Qmult;
  div := Qdiv;
  eqb := Qeq_bool;
  ltb := fun a b => negb (Qle_bool b a);
  leb := Qle_bool
}.

(** *** real numbers *)

Definition Reqb (a b : R) : bool := if Req_dec_T a b then true else false.
Definition Rltb (a b : R) : bool := if Rlt_dec a b then true else false.
Definition Rleb (a b : R) : bool := if Rle_dec a b then true else false.

#[export] Instance Num_R : Num R := {
  of_int := IZR;
  add := Rplus;
  sub := Rminus;
  mul := Rmult;
  div := Rdiv;
  eqb := Reqb;
  ltb := Rltb;
  leb := Rleb
}.

#[export] Instance Trig_R : math.Trig R := {
  math.sin := Rtrigo_def.sin;
  math.cos := Rtrigo_def.cos;
  math.PI := Rtrigo1.PI
}.

(** No real number is infinite. *)
#[export] Instance Inf_R : math.Inf R := {
  math.isinf := fun _ => false
}.

(** ** class InterpolatedTrajectory *)

Module InterpolatedTrajectory.
Section Code.
Context {F : Type} `{Num F}.
Local Open Scope py_scope.

(** A node is the tuple the caller wrote, of whatever length: a list of
    numbers; a position is the 2-tuple [node[0:2]] or [(x, y)]. *)

Record state : Type := mk {
  nodes : list (list F);
  index : nat;
  next_index : nat;
  time : F;
  last_pos : list F;
  curr_pos : list F;
  target_time : F
}.

Definition set_index (self : state) (v : nat) : state :=
  mk (nodes self) v (next_index self) (time self) (last_pos self)
     (curr_pos self) (target_time self).

Definition set_next_index (self : state) (v : nat) : state :=
  mk (nodes self) (index self) v (time self) (last_pos self)
     (curr_pos self) (target_time self).

Definition set_time (self : state) (v : F) : state :=
  mk (nodes self) (index self) (next_index self) v (last_pos self)
     (curr_pos self) (target_time self).

Definition set_last_pos (self : state) (v : list F) : state :=
  mk (nodes self) (index self) (next_index self) (time self) v
     (curr_pos self) (target_time self).

Definition set_curr_pos (self : state) (v : list F) : state :=
  mk (nodes self) (index self) (next_index self) (time self) (last_pos self)
     v (target_time self).

Definition set_target_time (self : state) (v : F) : state :=
  mk (nodes self) (index self) (next_index self) (time self) (last_pos self)
     (curr_pos self) v.

(** [_get_next_index], as a function of the two fields it reads. *)
Definition _get_next_index (self_nodes : list (list F)) (self_index : nat) : nat :=
  if (length self_nodes <=? self_index + 1)%nat then 0%nat
  else (self_index + 1)%nat.

(** The [for node in nodes] loop of the constructor, threading
    [found_nonzero_time]. *)
Fixpoint check_nodes (nodes : list (list F)) (found_nonzero_time : bool)
  : outcome bool :=
  match nodes with
  | [] => Ret found_nonzero_time
  | node :: rest =>
      if negb (length node =? 3)%nat then Raise ValueError
      else
        node_2 <- getitem node 2 ;;
        check_nodes rest
          (if node_2 != of_int 0 then true else found_nonzero_time)
  end.

Definition __init__ (nodes : list (list F)) : outcome state :=
  found_nonzero_time <- check_nodes nodes false ;;
  if negb found_nonzero_time then Raise ValueError
  else
    let index := 0%nat in
    let next_index := _get_next_index nodes index in
    let time := of_int 0 in
    nodes_0 <- getitem nodes 0 ;;
    let last_pos := firstn 2 nodes_0 in
    let curr_pos := last_pos in
    target_time <- getitem nodes_0 2 ;;
    Ret (mk nodes index next_index time last_pos curr_pos target_time).

Definition _go_to_next_index (self : state) : outcome state :=
  let self := set_index self (next_index self) in
  let self := set_next_index self (_get_next_index (nodes self) (index self)) in
  node_2 <- getitem2 (nodes self) (index self) 2 ;;
  Ret (set_target_time self node_2).

(** [while self.target_time == 0.0: self._go_to_next_index()] *)
Fixpoint skip_zero_loop (fuel : nat) (self : state) : outcome state :=
  if target_time self == of_int 0 then
    match fuel with
    | O => OutOfFuel
    | S fuel =>
        self <- _go_to_next_index self ;;
        skip_zero_loop fuel self
    end
  else Ret self.

(** [while remaining_step >= self.target_time: ...] *)
Fixpoint overshoot_loop (fuel : nat) (remaining_step : F) (self : state)
  : outcome (F * state) :=
  if remaining_step >= target_time self then
    match fuel with
    | O => OutOfFuel
    | S fuel =>
        let remaining_step := remaining_step - target_time self in
        let remaining_step :=
          if remaining_step < of_int 0 then of_int 0 else remaining_step in
        self <- _go_to_next_index self ;;
        overshoot_loop fuel remaining_step self
    end
  else Ret (remaining_step, self).

Definition get_next_position (fuel : nat) (self : state) (step : F)
  : outcome (state * list F) :=
  self <- skip_zero_loop fuel self ;;
  self <-
    (if time self + step >= target_time self then
       let remaining_step := step - (target_time self - time self) in
       self <- _go_to_next_index self ;;
       '(remaining_step, self) <- overshoot_loop fuel remaining_step self ;;
       Ret (set_time self remaining_step)
     else Ret (set_time self (time self + step))) ;;
  start_x <- getitem2 (nodes self) (index self) 0 ;;
  next_x <- getitem2 (nodes self) (next_index self) 0 ;;
  let delta_x := next_x - start_x in
  start_y <- getitem2 (nodes self) (index self) 1 ;;
  next_y <- getitem2 (nodes self) (next_index self) 1 ;;
  let delta_y := next_y - start_y in
  let self := set_last_pos self (curr_pos self) in
  off_x <- truediv (delta_x * time self) (target_time self) ;;
  off_y <- truediv (delta_y * time self) (target_time self) ;;
  let self := set_curr_pos self [start_x + off_x; start_y + off_y] in
  Ret (self, curr_pos self).

Definition get_delta (fuel : nat) (self : state) (step : F)
  : outcome (state * (F * F)) :=
  '(self, _) <- get_next_position fuel self step ;;
  curr_0 <- getitem (curr_pos self) 0 ;;
  last_0 <- getitem (last_pos self) 0 ;;
  curr_1 <- getitem (curr_pos self) 1 ;;
  last_1 <- getitem (last_pos self) 1 ;;
  Ret (self, (curr_0 - last_0, curr_1 - last_1)).

(** Repeated [get_next_position], one call per element of [steps]. *)
Fixpoint advance_all (fuel : nat) (self : state) (steps : list F)
  : outcome state :=
  match steps with
  | [] => Ret self
  | step :: steps =>
      '(self, _) <- get_next_position fuel self step ;;
      advance_all fuel self steps
  end.

End Code.
End InterpolatedTrajectory.

(** ** class EllipticTrajectory *)

(** The state of the class and the values its methods compute when
    [math.sin] and [math.cos] return.  The methods as calls, which raise
    when these raise, are those of [EllipticCalls] below. *)
Module EllipticTrajectory.
Section Code.
Context {F : Type} `{Num F} `{math.Trig F}.
Local Open Scope py_scope.

Record state : Type := mk {
  rotation : F;
  x_length : F;
  y_length : F;
  t : F;
  curr_pos : F * F;
  last_pos : F * F
}.

Definition set_t (self : state) (v : F) : state :=
  mk (rotation self) (x_length self) (y_length self) v
     (curr_pos self) (last_pos self).

Definition set_curr_pos (self : state) (v : F * F) : state :=
  mk (rotation self) (x_length self) (y_length self) (t self)
     v (last_pos self).

Definition set_last_pos (self : state) (v : F * F) : state :=
  mk (rotation self) (x_length self) (y_length self) (t self)
     (curr_pos self) v.

Definition get_next_position (self : state) (step : F) : state * (F * F) :=
  let self := set_t self (t self + step) in
  let x := x_length self * math.cos (t self) * math.cos (rotation self)
           - y_length self * math.sin (t self) * math.sin (rotation self) in
  let y := x_length self * math.cos (t self) * math.sin (rotation self)
           + y_length self * math.sin (t self) * math.cos (rotation self) in
  let self :=
    if t self >= of_int 1000 * math.PI then
      set_t self (t self - of_int 1000 * math.PI)
    else if t self <= of_int (-1000) * math.PI then
      set_t self (t self + of_int 1000 * math.PI)
    else self in
  let self := set_last_pos self (curr_pos self) in
  let self := set_curr_pos self (x, y) in
  (self, (x, y)).

(** [last_pos] does not exist before the first [get_next_position]
    assigns it; the record starts it at the value [(0, 0)] of [curr_pos]. *)
Definition __init__ (rotation x_length y_length : F) : state :=
  let self := mk rotation x_length y_length (of_int 0)
                 (of_int 0, of_int 0) (of_int 0, of_int 0) in
  let '(self, pos) := get_next_position self (of_int 0) in
  let self := set_last_pos self pos in
  set_curr_pos self (last_pos self).

Definition get_delta (self : state) (step : F) : state * (F * F) :=
  let '(self, _) := get_next_position self step in
  (self, (fst (curr_pos self) - fst (last_pos self),
          snd (curr_pos self) - snd (last_pos self))).

(** Repeated [get_next_position], one call per element of [steps]. *)
Fixpoint advance_all (self : state) (steps : list F) : state :=
  match steps with
  | [] => self
  | step :: steps => advance_all (fst (get_next_position self step)) steps
  end.

End Code.
End EllipticTrajectory.

(** ** class EllipticTrajectory: the methods as calls *)

(** The methods of [EllipticTrajectory] with the calls of [math.sin] and
    [math.cos] in the order of the source, each of which raises
    [ValueError] on an infinite argument. *)
Module EllipticCalls.
Section Code.
Context {F : Type} `{Num F} `{math.Trig F} `{math.Inf F}.
Local Open Scope py_scope.
Import EllipticTrajectory.

Definition get_next_position (self : state) (step : F)
  : outcome (state * (F * F)) :=
  let self := set_t self (t self + step) in
  cos_t <- math.cos_call (t self) ;;
  cos_r <- math.cos_call (rotation self) ;;
  sin_t <- math.sin_call (t self) ;;
  sin_r <- math.sin_call (rotation self) ;;
  let x := x_length self * cos_t * cos_r - y_length self * sin_t * sin_r in
  cos_t <- math.cos_call (t self) ;;
  sin_r <- math.sin_call (rotation self) ;;
  sin_t <- math.sin_call (t self) ;;
  cos_r <- math.cos_call (rotation self) ;;
  let y := x_length self * cos_t * sin_r + y_length self * sin_t * cos_r in
  let self :=
    if t self >= of_int 1000 * math.PI then
      set_t self (t self - of_int 1000 * math.PI)
    else if t self <= of_int (-1000) * math.PI then
      set_t self (t self + of_int 1000 * math.PI)
    else self in
  let self := set_last_pos self (curr_pos self) in
  let self := set_curr_pos self (x, y) in
  Ret (self, (x, y)).

Definition __init__ (rotation x_length y_length : F) : outcome state :=
  let self := mk rotation x_length y_length (of_int 0)
                 (of_int 0, of_int 0) (of_int 0, of_int 0) in
  '(self, pos) <- get_next_position self (of_int 0) ;;
  let self := set_last_pos self pos in
  Ret (set_curr_pos self (last_pos self)).

Definition get_delta (self : state) (step : F) : outcome (state * (F * F)) :=
  '(self, _) <- get_next_position self step ;;
  Ret (self, (fst (curr_pos self) - fst (last_pos self),
              snd (curr_pos self) - snd (last_pos self))).

End Code.
End EllipticCalls.

(** ** main *)

Module Main.
Section Code.
Context {F : Type} `{Num F} `{math.Trig F}.
Local Open Scope py_scope.

(** A decimal literal [n/d] of the source: [0.005] is [decimal 5 1000]. *)
Definition decimal (n d : Z) : F := div (of_int n) (of_int d).

(** The arguments of a [push].  What the source pushes on a path is the
    string ['M {0:.4} {1:.4}'.format(x, y)] or
    ['l {0:.4} {1:.4}'.format(dx, dy)], which holds [x] and [y] rounded to
    four significant digits.  A [command] records the numbers handed to
    [format], not the string made of them: the rounding of [format] is
    not modelled, and nothing here speaks of the digits written to the
    file. *)
Inductive command : Type :=
| M (x y : F)
| l (dx dy : F).

Definition HEART_NODES : list (list F) :=
  [ [decimal 1042397 1000; decimal 0 1; of_int 2];
    [decimal 222128 1000; decimal 798490 1000; of_int 1];
    [decimal 75494 1000; decimal 1003194 1000; of_int 1];
    [decimal 0 1; decimal 1286295 1000; of_int 1];
    [decimal 2908 1000; decimal 1493902 1000; of_int 1];
    [decimal 76948 1000; decimal 1740708 1000; of_int 1];
    [decimal 239549 1000; decimal 1927991 1000; of_int 1];
    [decimal 371661 1000; decimal 2007840 1000; of_int 1];
    [decimal 541524 1000; decimal 2045586 1000; of_int 1];
    [decimal 707029 1000; decimal 2013647 1000; of_int 1];
    [decimal 823173 1000; decimal 1927991 1000; of_int 1];
    [decimal 904474 1000; decimal 1881533 1000; of_int 1];
    [decimal 1042397 1000; decimal 1871370 1000; of_int 1];
    [decimal 1180316 1000; decimal 1881533 1000; of_int 1];
    [decimal 1261617 1000; decimal 1927991 1000; of_int 1];
    [decimal 1377761 1000; decimal 2013647 1000; of_int 1];
    [decimal 1543266 1000; decimal 2045586 1000; of_int 1];
    [decimal 1713124 1000; decimal 2007840 1000; of_int 1];
    [decimal 1845240 1000; decimal 1927991 1000; of_int 1];
    [decimal 2007842 1000; decimal 1740708 1000; of_int 1];
    [decimal 2081886 1000; decimal 1493902 1000; of_int 1];
    [decimal 2084785 1000; decimal 1286295 1000; of_int 1];
    [decimal 2009291 1000; decimal 1003194 1000; of_int 1];
    [decimal 1862662 1000; decimal 798490 1000; of_int 2] ].

(** The body of [for i in range(nodes)], [nodes] times, with the numbers
    handed to [format] in place of the strings pushed.  The elliptic
    samplers are advanced by the values of [EllipticTrajectory]: the loop
    is the source's as long as their phases stay finite. *)
Fixpoint sampling_loop (fuel nodes : nat) (step PARENT_SCALE ELLIPSE_SCALE : F)
    (parent : InterpolatedTrajectory.state)
    (et_1 et_2 : EllipticTrajectory.state)
    (path_1 path_2 : list command)
  : outcome (list command * list command) :=
  match nodes with
  | O => Ret (path_1, path_2)
  | S nodes =>
      '(parent, parent_delta) <-
        InterpolatedTrajectory.get_delta fuel parent (step * PARENT_SCALE) ;;
      let '(et_1, et_1_delta) :=
        EllipticTrajectory.get_delta et_1 (step * ELLIPSE_SCALE) in
      let '(et_2, et_2_delta) :=
        EllipticTrajectory.get_delta et_2 (step * ELLIPSE_SCALE) in
      let path_1 :=
        path_1 ++ [l (fst parent_delta + fst et_1_delta)
                     (snd parent_delta + snd et_1_delta)] in
      let path_2 :=
        path_2 ++ [l (fst parent_delta + fst et_2_delta)
                     (snd parent_delta + snd et_2_delta)] in
      sampling_loop fuel nodes step PARENT_SCALE ELLIPSE_SCALE
                    parent et_1 et_2 path_1 path_2
  end.

Definition main (fuel : nat) : outcome (list command * list command) :=
  let ELLIPSE_SCALE := of_int 2 * math.PI in
  let PARENT_SCALE := of_int 2 in
  let et_1 := EllipticTrajectory.__init__
                (div math.PI (of_int 4)) (of_int 200) (of_int 25) in
  let et_2 := EllipticTrajectory.__init__
                (div (of_int 3 * math.PI) (of_int 4)) (of_int 200) (of_int 25) in
  parent <- InterpolatedTrajectory.__init__ HEART_NODES ;;
  parent_0 <- getitem (InterpolatedTrajectory.curr_pos parent) 0 ;;
  parent_1 <- getitem (InterpolatedTrajectory.curr_pos parent) 1 ;;
  let path_1 := [M (parent_0 + fst (EllipticTrajectory.curr_pos et_1))
                   (parent_1 + snd (EllipticTrajectory.curr_pos et_1))] in
  let path_2 := [M (parent_0 + fst (EllipticTrajectory.curr_pos et_2))
                   (parent_1 + snd (EllipticTrajectory.curr_pos et_2))] in
  let step := decimal 5 1000 in
  let nodes := (200 * 15)%nat in
  sampling_loop fuel nodes step PARENT_SCALE ELLIPSE_SCALE
                parent et_1 et_2 path_1 path_2.

End Code.
End Main.

(** ** main, with the methods of the elliptic samplers as calls *)

(** The constructors and the loop of [main] with [EllipticCalls]: a
    [ValueError] of [math.sin] or [math.cos] ends the run. *)
Module MainCalls.
Section Code.
Context {F : Type} `{Num F} `{math.Trig F} `{math.Inf F}.
Local Open Scope py_scope.

Fixpoint sampling_loop (fuel nodes : nat) (step PARENT_SCALE ELLIPSE_SCALE : F)
    (parent : InterpolatedTrajectory.state)
    (et_1 et_2 : EllipticTrajectory.state)
    (path_1 path_2 : list Main.command)
  : outcome (list Main.command * list Main.command) :=
  match nodes with
  | O => Ret (path_1, path_2)
  | S nodes =>
      '(parent, parent_delta) <-
        InterpolatedTrajectory.get_delta fuel parent (step * PARENT_SCALE) ;;
      '(et_1, et_1_delta) <-
        EllipticCalls.get_delta et_1 (step * ELLIPSE_SCALE) ;;
      '(et_2, et_2_delta) <-
        EllipticCalls.get_delta et_2 (step * ELLIPSE_SCALE) ;;
      let path_1 :=
        path_1 ++ [Main.l (fst parent_delta + fst et_1_delta)
                          (snd parent_delta + snd et_1_delta)] in
      let path_2 :=
        path_2 ++ [Main.l (fst parent_delta + fst et_2_delta)
                          (snd parent_delta + snd et_2_delta)] in
      sampling_loop fuel nodes step PARENT_SCALE ELLIPSE_SCALE
                    parent et_1 et_2 path_1 path_2
  end.

Definition main (fuel : nat) : outcome (list Main.command * list Main.command) :=
  let ELLIPSE_SCALE := of_int 2 * math.PI in
  let PARENT_SCALE := of_int 2 in
  et_1 <- EllipticCalls.__init__
            (div math.PI (of_int 4)) (of_int 200) (of_int 25) ;;
  et_2 <- EllipticCalls.__init__
            (div (of_int 3 * math.PI) (of_int 4)) (of_int 200) (of_int 25) ;;
  parent <- InterpolatedTrajectory.__init__ Main.HEART_NODES ;;
  parent_0 <- getitem (InterpolatedTrajectory.curr_pos parent) 0 ;;
  parent_1 <- getitem (InterpolatedTrajectory.curr_pos parent) 1 ;;
  let path_1 := [Main.M (parent_0 + fst (EllipticTrajectory.curr_pos et_1))
                        (parent_1 + snd (EllipticTrajectory.curr_pos et_1))] in
  let path_2 := [Main.M (parent_0 + fst (EllipticTrajectory.curr_pos et_2))
                        (parent_1 + snd (EllipticTrajectory.curr_pos et_2))] in
  let step := Main.decimal 5 1000 in
  let nodes := (200 * 15)%nat in
  sampling_loop fuel nodes step PARENT_SCALE ELLIPSE_SCALE
                parent et_1 et_2 path_1 path_2.

End Code.
End MainCalls.

(** ** Notions used in the statements *)

(** *** The constructor's validation *)

Section Validation.
Context {F : Type} `{Num F}.

(** [node[2] != 0.0], for a node that has a third field. *)
Definition nonzero_time (nd : list F) : bool :=
  match nth_error nd 2 with
  | Some d => negb (eqb d (of_int 0))
  | None => false
  end.

(** [node[2] > 0], for a node that has a third field. *)
Definition positive_time (nd : list F) : bool :=
  match nth_error nd 2 with
  | Some d => ltb (of_int 0) d
  | None => false
  end.

Definition some_bad_arity (nodes : list (list F)) : Prop :=
  exists nd, In nd nodes /\ length nd <> 3%nat.

Definition no_nonzero_time (nodes : list (list F)) : Prop :=
  forall nd, In nd nodes -> nonzero_time nd = false.

Definition no_positive_time (nodes : list (list F)) : Prop :=
  forall nd, In nd nodes -> positive_time nd = false.

(** What the constructor accepts: three fields in each node, and a
    non-zero time in some node. *)
Definition accepted (nodes : list (list F)) : Prop :=
  Forall (fun nd => length nd = 3%nat) nodes /\
  exists nd, In nd nodes /\ nonzero_time nd = true.

(** [self] is at a waypoint of [nodes]: the fields that
    [_go_to_next_index] maintains agree with [index]. *)
Definition positioned (nodes : list (list F))
    (self : InterpolatedTrajectory.state) : Prop :=
  InterpolatedTrajectory.nodes self = nodes /\
  (InterpolatedTrajectory.index self < length nodes)%nat /\
  InterpolatedTrajectory.next_index self =
    InterpolatedTrajectory._get_next_index nodes
      (InterpolatedTrajectory.index self) /\
  getitem2 nodes (InterpolatedTrajectory.index self) 2 =
    Ret (InterpolatedTrajectory.target_time self).

End Validation.

(** *** The cycle of waypoints, in exact arithmetic *)

Module Cycle.
Import InterpolatedTrajectory.
Local Open Scope Q_scope.

Definition duration (nd : list Q) : Q := nth 2 nd 0.

Fixpoint sumQ (l : list Q) : Q :=
  match l with
  | [] => 0
  | x :: l => x + sumQ l
  end.

Definition nonneg (x : Q) : Prop := 0 <= x.

(** The duration of one lap. *)
Definition total (nodes : list (list Q)) : Q := sumQ (map duration nodes).

(** The time, within a lap, at which segment [i] begins. *)
Definition start (nodes : list (list Q)) (i : nat) : Q :=
  sumQ (firstn i (map duration nodes)).

(** [k] laps of duration [lap]. *)
Fixpoint laps (k : nat) (lap : Q) : Q :=
  match k with
  | O => 0
  | S k => laps k lap + lap
  end.

(** The invariant of a waypoint list: three fields each, no negative
    duration, some positive duration (so the list is not empty). *)
Definition well_formed (nodes : list (list Q)) : Prop :=
  Forall (fun nd => length nd = 3%nat) nodes /\
  Forall (fun nd => 0 <= duration nd) nodes /\
  Exists (fun nd => 0 < duration nd) nodes.

(** The fields of [self] that depend on [index] agree with it. *)
Definition consistent (nodes : list (list Q)) (self : state (F:=Q)) : Prop :=
  InterpolatedTrajectory.nodes self = nodes /\
  (index self < length nodes)%nat /\
  next_index self = Nat.modulo (index self + 1) (length nodes) /\
  target_time self = duration (nth (index self) nodes []) /\
  length (curr_pos self) = 2%nat.

(** After an advance: inside a segment of positive duration. *)
Definition settled (self : state (F:=Q)) : Prop :=
  0 < target_time self /\ 0 <= time self /\ time self < target_time self.

(** Before an advance: settled, or at the start of a segment of duration
    zero that is still to be skipped. *)
Definition valid (nodes : list (list Q)) (self : state (F:=Q)) : Prop :=
  consistent nodes self /\
  (settled self \/ (time self == 0 /\ target_time self == 0)).

(** Time left in the current segment. *)
Definition remaining (self : state (F:=Q)) : Q :=
  target_time self - time self.

(** Where [self] is within a lap: the start of its segment plus the time
    spent in it. *)
Definition phase (nodes : list (list Q)) (self : state (F:=Q)) : Q :=
  start nodes (index self) + time self.

(** Positions are compared as rationals. *)
Definition pos_eq (p q : list Q) : Prop := Forall2 Qeq p q.

(** Field [j] of waypoint [i]. *)
Definition field (nodes : list (list Q)) (i j : nat) : Q :=
  nth j (nth i nodes []) 0.

(** The point at time [e] of segment [i], as [get_next_position]
    computes it. *)
Definition interpolate (nodes : list (list Q)) (i : nat) (e : Q) : list Q :=
  let j := Nat.modulo (i + 1) (length nodes) in
  [field nodes i 0 + (field nodes j 0 - field nodes i 0) * e / field nodes i 2;
   field nodes i 1 + (field nodes j 1 - field nodes i 1) * e / field nodes i 2].

(** The index of the first waypoint with a positive duration. *)
Fixpoint first_positive (nodes : list (list Q)) : nat :=
  match nodes with
  | [] => 0
  | nd :: rest =>
      if Qle_bool (duration nd) 0 then S (first_positive rest) else 0
  end.

(** The segments [i+1 .. i+m-1] (cyclically) have duration zero and
    segment [i+m] has a positive one: [i+m] is the first segment of
    positive duration reached after leaving segment [i]. *)
Definition next_positive (nodes : list (list Q)) (i m : nat) : Prop :=
  (1 <= m)%nat /\
  (forall k, (1 <= k < m)%nat ->
     duration (nth (Nat.modulo (i + k) (length nodes)) nodes []) == 0) /\
  0 < duration (nth (Nat.modulo (i + m) (length nodes)) nodes []).

End Cycle.

(** *** The elliptic sampler, over the reals *)

Module Ellipse.
Import EllipticTrajectory.
Local Open Scope R_scope.

(** The point of the rotated ellipse at phase [phase]. *)
Definition point (rotation x_length y_length phase : R) : R * R :=
  (x_length * cos phase * cos rotation - y_length * sin phase * sin rotation,
   x_length * cos phase * sin rotation + y_length * sin phase * cos rotation).

Definition in_range (phase : R) : Prop :=
  -1000 * PI < phase /\ phase <= 1000 * PI.

(** A step that is small relative to the wrap bound. *)
Definition small (step : R) : Prop := Rabs step <= 1000 * PI.

Fixpoint sumR (l : list R) : R :=
  match l with
  | [] => 0
  | x :: l => x + sumR l
  end.

End Ellipse.

(** *** The sampling loop *)

Section Independent.
Context {F : Type} `{Num F} `{math.Trig F}.

(** The deltas of an interpolator advanced on its own. *)
Fixpoint parent_deltas (fuel n : nat) (parent : InterpolatedTrajectory.state)
    (step : F) : outcome (list (F * F)) :=
  match n with
  | O => Ret []
  | S n =>
      bind (InterpolatedTrajectory.get_delta fuel parent step)
        (fun r => bind (parent_deltas fuel n (fst r) step)
                    (fun ds => Ret (snd r :: ds)))
  end.

(** The deltas of an elliptic sampler advanced on its own. *)
Fixpoint child_deltas (n : nat) (et : EllipticTrajectory.state) (step : F)
  : list (F * F) :=
  match n with
  | O => []
  | S n =>
      let r := EllipticTrajectory.get_delta et step in
      snd r :: child_deltas n (fst r) step
  end.

(** The relative-line commands for a parent stream and a child stream,
    added iteration by iteration. *)
Fixpoint combine_deltas (ps cs : list (F * F)) : list Main.command :=
  match ps, cs with
  | p :: ps, c :: cs =>
      Main.l (add (fst p) (fst c)) (add (snd p) (snd c)) :: combine_deltas ps cs
  | _, _ => []
  end.

End Independent.

Section Finite.
Context {F : Type} `{Num F} `{math.Trig F} `{math.Inf F}.

(** The calls of [math.sin] and [math.cos] return during [n] calls of
    [get_next_position]: the rotation is finite, and so is the phase each
    time the step has been added. *)
Fixpoint phases_finite (n : nat) (et : EllipticTrajectory.state) (step : F)
  : bool :=
  match n with
  | O => true
  | S n =>
      negb (math.isinf (add (EllipticTrajectory.t et) step)
            || math.isinf (EllipticTrajectory.rotation et))
      && phases_finite n (fst (EllipticTrajectory.get_next_position et step)) step
  end.

End Finite.

(** *** Waypoint lists and steps of the examples *)

(** The square of the end-to-end example: four sides of duration 1. *)
Definition square : list (list Q) :=
  [[0; 0; 1]; [10; 0; 1]; [10; 10; 1]; [0; 10; 1]]%Q.

(** A cusp between two sides: the middle waypoint has duration zero. *)
Definition cusp : list (list Q) := [[0; 0; 1]; [1; 0; 0]; [2; 0; 1]]%Q.

(** The interpolator on [cusp], as constructed. *)
Definition cusp_start : InterpolatedTrajectory.state (F:=Q) :=
  InterpolatedTrajectory.mk cusp 0 1 0%Q [0; 0]%Q [0; 0]%Q 1%Q.

(** The same lists in binary64. *)
Definition two_sides : list (list float) := [[0; 0; 1]; [1; 0; 1]]%float.

Definition cusp_float : list (list float) :=
  [[0; 0; 1]; [1; 0; 0]; [2; 0; 1]]%float.

Definition unit_loop : list (list float) := [[0; 0; 1]]%float.

(** The largest float below 1, [0.9999999999999999] in Python. *)
Definition below_one : float := 0x1.fffffffffffffp-1%float.

(** [2 ** -54], [5.551115123125783e-17] in Python: half the gap between
    [below_one] and 1. *)
Definition half_gap : float := 0x1p-54%float.

(** ** Tactics *)

(** Case analysis on the condition of the first [if] of the goal. *)
Ltac case_if :=
  match goal with
  | |- context [if ?c then _ else _] => destruct c eqn:?
  end.

(** Split a conjunction into its conjuncts, and nothing else. *)
Ltac split_and :=
  repeat match goal with
         | |- _ /\ _ => split
         end.

(** Reduce the field accesses of an interpolator built by the setters. *)
Ltac fields :=
  cbn [InterpolatedTrajectory.set_index InterpolatedTrajectory.set_next_index
       InterpolatedTrajectory.set_time InterpolatedTrajectory.set_last_pos
       InterpolatedTrajectory.set_curr_pos InterpolatedTrajectory.set_target_time
       InterpolatedTrajectory.nodes InterpolatedTrajectory.index
       InterpolatedTrajectory.next_index InterpolatedTrajectory.time
       InterpolatedTrajectory.last_pos InterpolatedTrajectory.curr_pos
       InterpolatedTrajectory.target_time].

(** ** Further notions *)

Section Moves.
Context {F : Type} `{Num F}.

(** [k] calls of [_go_to_next_index]. *)
Fixpoint go_next_times (k : nat) (self : InterpolatedTrajectory.state (F:=F))
  : outcome (InterpolatedTrajectory.state (F:=F)) :=
  match k with
  | O => Ret self
  | S k =>
      bind (InterpolatedTrajectory._go_to_next_index self) (go_next_times k)
  end.

(** What [_go_to_next_index] and the two loops leave alone. *)
Definition same_frame (self self' : InterpolatedTrajectory.state (F:=F)) : Prop :=
  InterpolatedTrajectory.nodes self' = InterpolatedTrajectory.nodes self /\
  InterpolatedTrajectory.time self' = InterpolatedTrajectory.time self /\
  InterpolatedTrajectory.last_pos self' = InterpolatedTrajectory.last_pos self /\
  InterpolatedTrajectory.curr_pos self' = InterpolatedTrajectory.curr_pos self.

End Moves.


(** The componentwise sum of a list of deltas. *)
Fixpoint sum_deltas (ds : list (R * R)) : R * R :=
  match ds with
  | [] => (0, 0)%R
  | d :: ds => (fst d + fst (sum_deltas ds), snd d + snd (sum_deltas ds))%R
  end.

(** A waypoint list whose durations are all negative. *)
Definition all_negative (nodes : list (list Q)) : Prop :=
  nodes <> [] /\
  Forall (fun nd => length nd = 3%nat) nodes /\
  Forall (fun nd => (Cycle.duration nd < 0)%Q) nodes.

(** A single waypoint of duration -1. *)
Definition backwards : list (list Q) := [[0; 0; -1]]%Q.

(** [cusp_float] as constructed, and waiting at its waypoint of duration
    zero. *)
Definition cusp_float_start : InterpolatedTrajectory.state (F:=float) :=
  InterpolatedTrajectory.mk cusp_float 0 1 0%float [0; 0]%float [0; 0]%float
    1%float.

Definition cusp_float_waiting : InterpolatedTrajectory.state (F:=float) :=
  InterpolatedTrajectory.mk cusp_float 1 2 0%float [0; 0]%float [1; 0]%float
    0%float.



(** The rational number that a finite binary64 number is; 0 for the
    infinities and NaN. *)
Definition float_value (x : float) : Q :=
  match Prim2SF x with
  | S754_finite s m e =>
      let v := (inject_Z (Z.pos m) * Qpower 2 e)%Q in
      if s then Qopp v else v
  | _ => 0%Q
  end.

(** A side followed by a waypoint of duration zero, in binary64. *)
Definition side_and_stop : list (list float) := [[0; 0; 1]; [5; 5; 0]]%float.

(** [0.25 - 2 ** -53], [0.24999999999999989] in Python. *)
Definition quarter_less : float := 0x1.ffffffffffffcp-3%float.

(** Four steps whose sum, as real numbers, is exactly 1. *)
Definition split_lap : list float := [0.75; half_gap; half_gap; quarter_less]%float.

(** The largest finite binary64 number, [sys.float_info.max]. *)
Definition float_max : float := 0x1.fffffffffffffp+1023%float.

(** An elliptic sampler in binary64 with the lengths of [main], rotation
    0 and phase 0, at the end of its x-axis. *)
Definition sampler_float : EllipticTrajectory.state (F:=float) :=
  EllipticTrajectory.mk 0%float 200%float 25%float 0%float
    (200, 0)%float (200, 0)%float.

(** [cusp] after half of its first side. *)
Definition cusp_half : InterpolatedTrajectory.state (F:=Q) :=
  InterpolatedTrajectory.mk cusp 0 1 (1 # 2)%Q [0; 0]%Q [1 # 2; 0]%Q 1%Q.



(** From [bind c k = Ret r], the result of [c]. *)
Ltac bind_inv H a E :=
  match type of H with
  | bind ?c _ = Ret _ =>
      destruct c as [a| |] eqn:E; cbn [bind] in H; [|discriminate H|discriminate H]
  end.



(** * Properties *)

(** ** The constructor of [InterpolatedTrajectory] *)

Section Constructor.
Context {F : Type} `{Num F}.
Import InterpolatedTrajectory.

Lemma check_nodes_raise (nodes : list (list F)) (found : bool) :
  (exists nd, In nd nodes /\ length nd <> 3%nat) ->
  check_nodes nodes found = Raise ValueError.
Proof.
  revert found; induction nodes as [|nd rest IH]; intros found [bad [Hin Hlen]].
  - destruct Hin.
  - simpl. destruct (Nat.eqb_spec (length nd) 3) as [E|E]; simpl.
    + destruct nd as [|x [|y [|d [|? ?]]]]; try discriminate E.
      simpl. apply IH. destruct Hin as [<-|Hin]; [now elim Hlen|eauto].
    + reflexivity.
Qed.

Lemma check_nodes_ok (nodes : list (list F)) (found : bool) :
  Forall (fun nd => length nd = 3%nat) nodes ->
  check_nodes nodes found = Ret (found || existsb nonzero_time nodes).
Proof.
  revert found; induction nodes as [|nd rest IH]; intros found Hall.
  - simpl. now rewrite orb_false_r.
  - inversion Hall as [|? ? Hnd Hrest]; subst.
    destruct nd as [|x [|y [|d [|? ?]]]]; try discriminate Hnd.
    simpl. rewrite IH by assumption. unfold nonzero_time; simpl.
    destruct (eqb d (of_int 0)); simpl; [reflexivity|].
    now rewrite orb_true_r.
Qed.

Lemma arity_dec (nodes : list (list F)) :
  Forall (fun nd => length nd = 3%nat) nodes \/ some_bad_arity nodes.
Proof.
  induction nodes as [|nd rest [IH|[bad [Hin Hlen]]]].
  - left; constructor.
  - destruct (Nat.eq_dec (length nd) 3) as [E|E].
    + left; now constructor.
    + right; exists nd; split; [now left|assumption].
  - right; exists bad; split; [now right|assumption].
Qed.

Lemma existsb_nonzero_false (nodes : list (list F)) :
  existsb nonzero_time nodes = false <-> no_nonzero_time nodes.
Proof.
  unfold no_nonzero_time. split.
  - intros E nd Hin. destruct (nonzero_time nd) eqn:Hnd; [|reflexivity].
    assert (existsb nonzero_time nodes = true) by (apply existsb_exists; eauto).
    congruence.
  - intros Hno. destruct (existsb nonzero_time nodes) eqn:E; [|reflexivity].
    apply existsb_exists in E. destruct E as [nd [Hin Hnd]].
    rewrite Hno in Hnd by assumption. discriminate.
Qed.

(** C1, as amended: the constructor raises [ValueError] exactly when some
    node does not have exactly three fields or no node has a non-zero
    time; it raises nothing else, and when it returns, the object has
    index 0, time 0 and position [(nodes[0][0], nodes[0][1])]. *)
Theorem init_raises_iff (nodes : list (list F)) :
  (__init__ nodes = Raise ValueError <->
     some_bad_arity nodes \/ no_nonzero_time nodes) /\
  match __init__ nodes with
  | Ret self =>
      exists x y d rest,
        nodes = [x; y; d] :: rest /\
        InterpolatedTrajectory.nodes self = nodes /\
        index self = 0%nat /\
        time self = of_int 0 /\
        curr_pos self = [x; y] /\
        last_pos self = [x; y] /\
        target_time self = d
  | Raise e => e = ValueError
  | OutOfFuel => False
  end.
Proof.
  destruct (arity_dec nodes) as [Hall|Hbad].
  - unfold __init__. rewrite (check_nodes_ok (nodes:=nodes) false) by exact Hall. simpl.
    destruct (existsb nonzero_time nodes) eqn:E; simpl.
    + destruct nodes as [|nd rest]; [discriminate E|].
      inversion Hall as [|? ? Hnd Hrest]; subst.
      destruct nd as [|x [|y [|d [|? ?]]]]; try discriminate Hnd.
      simpl. split.
      * split; [discriminate|]. intros [[bad [Hin Hlen]]|Hno].
        -- rewrite Forall_forall in Hall. now apply Hall in Hin.
        -- apply existsb_nonzero_false in Hno. congruence.
      * exists x, y, d, rest. repeat split; reflexivity.
    + split; [|reflexivity].
      split; [|reflexivity]. intros _. right. now apply existsb_nonzero_false.
  - unfold __init__. rewrite (check_nodes_raise nodes false) by exact Hbad. simpl.
    split; [|reflexivity]. split; [|reflexivity]. intros _. now left.
Qed.

(** C10: the empty list is rejected with [ValueError]. *)
Theorem init_empty_raises : __init__ (F:=F) [] = Raise ValueError.
Proof. reflexivity. Qed.
End Constructor.

(** C1, as stated, fails: the single node [(0, 0, -1)] has three fields
    and no node has a positive duration, yet the constructor returns. *)
Lemma init_negative_duration_accepted :
  let nodes : list (list float) := [[0; 0; -1]]%float in
  ~ (InterpolatedTrajectory.__init__ nodes = Raise ValueError <->
       some_bad_arity nodes \/ no_positive_time nodes).
Proof.
  intros nodes [_ Hraise].
  assert (Hclaim : InterpolatedTrajectory.__init__ nodes = Raise ValueError).
  { apply Hraise. right. intros nd [<-|[]]. reflexivity. }
  vm_compute in Hclaim. discriminate Hclaim.
Qed.

(** ** [EllipticTrajectory.get_delta] and the sampling loop, for any numbers *)

Section Generic.
Context {F : Type} `{Num F} `{math.Trig F}.
Local Open Scope py_scope.

(** The phase after the wraparound correction of [get_next_position]. *)
Lemma elliptic_phase_after (self : EllipticTrajectory.state) (step : F) :
  EllipticTrajectory.t (fst (EllipticTrajectory.get_next_position self step)) =
  let t := EllipticTrajectory.t self + step in
  if t >= of_int 1000 * math.PI then t - of_int 1000 * math.PI
  else if t <= of_int (-1000) * math.PI then t + of_int 1000 * math.PI
  else t.
Proof.
  unfold EllipticTrajectory.get_next_position. simpl.
  repeat case_if; reflexivity.
Qed.

(** The values of [get_delta step]: the phase plus [step], the point of
    the rotated ellipse there, and that point minus the position held
    before. *)
Lemma elliptic_get_delta_spec (self : EllipticTrajectory.state) (step : F) :
  let t := EllipticTrajectory.t self + step in
  let a := EllipticTrajectory.x_length self in
  let b := EllipticTrajectory.y_length self in
  let theta := EllipticTrajectory.rotation self in
  let x := a * math.cos t * math.cos theta - b * math.sin t * math.sin theta in
  let y := a * math.cos t * math.sin theta + b * math.sin t * math.cos theta in
  let old := EllipticTrajectory.curr_pos self in
  exists self',
    EllipticTrajectory.get_delta self step = (self', (x - fst old, y - snd old)) /\
    EllipticTrajectory.curr_pos self' = (x, y) /\
    EllipticTrajectory.last_pos self' = old /\
    EllipticTrajectory.rotation self' = theta /\
    EllipticTrajectory.x_length self' = a /\
    EllipticTrajectory.y_length self' = b /\
    EllipticTrajectory.t self' =
      (if t >= of_int 1000 * math.PI then t - of_int 1000 * math.PI
       else if t <= of_int (-1000) * math.PI then t + of_int 1000 * math.PI
       else t).
Proof.
  intros t a b theta x y old.
  exists (fst (EllipticTrajectory.get_next_position self step)).
  split; [|split; [|split; [|split; [|split; [|split]]]]].
  - unfold EllipticTrajectory.get_delta, EllipticTrajectory.get_next_position.
    simpl. repeat case_if; reflexivity.
  - unfold EllipticTrajectory.get_next_position; simpl.
    repeat case_if; reflexivity.
  - unfold EllipticTrajectory.get_next_position; simpl.
    repeat case_if; reflexivity.
  - unfold EllipticTrajectory.get_next_position; simpl.
    repeat case_if; reflexivity.
  - unfold EllipticTrajectory.get_next_position; simpl.
    repeat case_if; reflexivity.
  - unfold EllipticTrajectory.get_next_position; simpl.
    repeat case_if; reflexivity.
  - apply elliptic_phase_after.
Qed.

Lemma child_deltas_length (n : nat) (et : EllipticTrajectory.state) (step : F) :
  length (child_deltas n et step) = n.
Proof.
  revert et; induction n as [|n IH]; intros et; simpl; [reflexivity|].
  now rewrite IH.
Qed.

Lemma parent_deltas_length (fuel n : nat) (parent : InterpolatedTrajectory.state)
    (step : F) (ps : list (F * F)) :
  parent_deltas fuel n parent step = Ret ps -> length ps = n.
Proof.
  revert parent ps; induction n as [|n IH]; intros parent ps; simpl.
  - intros E; injection E as <-; reflexivity.
  - destruct (InterpolatedTrajectory.get_delta fuel parent step)
      as [[parent' pd]|e|]; simpl; try discriminate.
    destruct (parent_deltas fuel n parent' step) as [ps'|e|] eqn:E;
      simpl; try discriminate.
    intros E'; injection E' as <-. simpl. f_equal. now apply (IH parent').
Qed.

(** C9: the sampling loop appends to each path, in iteration order, the
    componentwise sum of the parent's delta and that child's delta, where
    the parent is advanced once per iteration by [step * PARENT_SCALE] and
    each child by [step * ELLIPSE_SCALE], each stream being the one the
    object produces when advanced on its own; each stream has one delta
    per iteration. *)
Theorem sampling_loop_adds_deltas (fuel n : nat)
    (step PARENT_SCALE ELLIPSE_SCALE : F)
    (parent : InterpolatedTrajectory.state)
    (et_1 et_2 : EllipticTrajectory.state) (path_1 path_2 : list Main.command) :
  Main.sampling_loop fuel n step PARENT_SCALE ELLIPSE_SCALE
                     parent et_1 et_2 path_1 path_2 =
  (ps <- parent_deltas fuel n parent (step * PARENT_SCALE) ;;
   Ret (path_1 ++ combine_deltas ps (child_deltas n et_1 (step * ELLIPSE_SCALE)),
        path_2 ++ combine_deltas ps (child_deltas n et_2 (step * ELLIPSE_SCALE))))
  /\ length (child_deltas n et_1 (step * ELLIPSE_SCALE)) = n
  /\ length (child_deltas n et_2 (step * ELLIPSE_SCALE)) = n
  /\ match parent_deltas fuel n parent (step * PARENT_SCALE) with
     | Ret ps => length ps = n
     | _ => True
     end.
Proof.
  split; [|split; [apply child_deltas_length|split; [apply child_deltas_length|]]].
  2:{ destruct (parent_deltas fuel n parent (step * PARENT_SCALE)) eqn:E; trivial.
      now apply parent_deltas_length in E. }
  revert parent et_1 et_2 path_1 path_2.
  induction n as [|n IH]; intros parent et_1 et_2 path_1 path_2; simpl.
  - now rewrite !app_nil_r.
  - destruct (InterpolatedTrajectory.get_delta fuel parent (step * PARENT_SCALE))
      as [[parent' pd]|e|]; simpl; try reflexivity.
    destruct (EllipticTrajectory.get_delta et_1 (step * ELLIPSE_SCALE))
      as [et_1' d1] eqn:E1.
    destruct (EllipticTrajectory.get_delta et_2 (step * ELLIPSE_SCALE))
      as [et_2' d2] eqn:E2.
    rewrite IH. simpl.
    destruct (parent_deltas fuel n parent' (step * PARENT_SCALE))
      as [ps|e|]; simpl; try reflexivity.
    now rewrite <- !app_assoc.
Qed.
End Generic.

(** ** The methods of the elliptic sampler as calls *)

Section Calls.
Context {F : Type} `{Num F} `{math.Trig F} `{math.Inf F}.
Local Open Scope py_scope.

(** A call of [get_next_position] raises when the phase after adding the
    step, or the rotation, is infinite, and returns the values of
    [EllipticTrajectory.get_next_position] otherwise. *)
Lemma elliptic_call_get_next_position (self : EllipticTrajectory.state) (step : F) :
  EllipticCalls.get_next_position self step =
  if math.isinf (EllipticTrajectory.t self + step)
     || math.isinf (EllipticTrajectory.rotation self)
  then Raise ValueError
  else Ret (EllipticTrajectory.get_next_position self step).
Proof.
  unfold EllipticCalls.get_next_position, EllipticTrajectory.get_next_position,
    math.cos_call, math.sin_call.
  cbn [EllipticTrajectory.set_t EllipticTrajectory.t EllipticTrajectory.rotation].
  destruct (math.isinf (EllipticTrajectory.t self + step));
    cbn [bind orb]; [reflexivity|].
  destruct (math.isinf (EllipticTrajectory.rotation self));
    cbn [bind]; reflexivity.
Qed.

Lemma elliptic_call_get_delta (self : EllipticTrajectory.state) (step : F) :
  EllipticCalls.get_delta self step =
  if math.isinf (EllipticTrajectory.t self + step)
     || math.isinf (EllipticTrajectory.rotation self)
  then Raise ValueError
  else Ret (EllipticTrajectory.get_delta self step).
Proof.
  unfold EllipticCalls.get_delta, EllipticTrajectory.get_delta.
  rewrite elliptic_call_get_next_position.
  destruct (math.isinf (EllipticTrajectory.t self + step)
            || math.isinf (EllipticTrajectory.rotation self));
    cbn [bind]; [reflexivity|].
  destruct (EllipticTrajectory.get_next_position self step); reflexivity.
Qed.

(** C8: a call [get_delta(step)] adds [step] to the phase; when the new
    phase and the rotation are finite it evaluates the rotated ellipse
    there, stores that point, and returns that point minus the position
    held before the call, without error; when the new phase or the
    rotation is infinite, [math.cos] raises [ValueError]. *)
Theorem elliptic_get_delta_call (self : EllipticTrajectory.state) (step : F) :
  let t := EllipticTrajectory.t self + step in
  let a := EllipticTrajectory.x_length self in
  let b := EllipticTrajectory.y_length self in
  let theta := EllipticTrajectory.rotation self in
  let x := a * math.cos t * math.cos theta - b * math.sin t * math.sin theta in
  let y := a * math.cos t * math.sin theta + b * math.sin t * math.cos theta in
  let old := EllipticTrajectory.curr_pos self in
  let t' := if t >= of_int 1000 * math.PI then t - of_int 1000 * math.PI
            else if t <= of_int (-1000) * math.PI then t + of_int 1000 * math.PI
            else t in
  EllipticCalls.get_delta self step =
  if math.isinf t || math.isinf theta then Raise ValueError
  else Ret (EllipticTrajectory.mk theta a b t' (x, y) old,
            (x - fst old, y - snd old)).
Proof.
  intros t a b theta x y old t'.
  rewrite elliptic_call_get_delta. fold t theta.
  destruct (math.isinf t || math.isinf theta); [reflexivity|].
  f_equal.
  unfold EllipticTrajectory.get_delta, EllipticTrajectory.get_next_position.
  subst t' x y old a b theta t. simpl.
  repeat case_if; reflexivity.
Qed.

(** The sampling loop with the methods of the elliptic samplers as calls
    is the sampling loop with their values, as long as the calls of
    [math.sin] and [math.cos] return: when the rotation of each sampler is
    finite and its phase is finite each time the step has been added, the
    two loops have the same outcome. *)
Lemma sampling_loop_calls (fuel n : nat) (step PARENT_SCALE ELLIPSE_SCALE : F) :
  forall (parent : InterpolatedTrajectory.state)
         (et_1 et_2 : EllipticTrajectory.state)
         (path_1 path_2 : list Main.command),
    phases_finite n et_1 (step * ELLIPSE_SCALE) = true ->
    phases_finite n et_2 (step * ELLIPSE_SCALE) = true ->
    MainCalls.sampling_loop fuel n step PARENT_SCALE ELLIPSE_SCALE
                            parent et_1 et_2 path_1 path_2 =
    Main.sampling_loop fuel n step PARENT_SCALE ELLIPSE_SCALE
                       parent et_1 et_2 path_1 path_2.
Proof.
  induction n as [|n IH]; intros parent et_1 et_2 path_1 path_2 Hph1 Hph2;
    [reflexivity|].
  cbn [phases_finite] in Hph1, Hph2.
  apply andb_prop in Hph1. destruct Hph1 as [Hfin1 Hph1].
  apply andb_prop in Hph2. destruct Hph2 as [Hfin2 Hph2].
  apply negb_true_iff in Hfin1, Hfin2.
  cbn [MainCalls.sampling_loop Main.sampling_loop].
  destruct (InterpolatedTrajectory.get_delta fuel parent (step * PARENT_SCALE))
    as [[parent' pd]|e|]; cbn [bind]; try reflexivity.
  rewrite !elliptic_call_get_delta.
  change (add (EllipticTrajectory.t et_1) (step * ELLIPSE_SCALE))
    with (EllipticTrajectory.t et_1 + step * ELLIPSE_SCALE) in Hfin1.
  change (add (EllipticTrajectory.t et_2) (step * ELLIPSE_SCALE))
    with (EllipticTrajectory.t et_2 + step * ELLIPSE_SCALE) in Hfin2.
  rewrite Hfin1, Hfin2. cbn [bind].
  unfold EllipticTrajectory.get_delta.
  destruct (EllipticTrajectory.get_next_position et_1 (step * ELLIPSE_SCALE))
    as [et_1' p1] eqn:E1.
  destruct (EllipticTrajectory.get_next_position et_2 (step * ELLIPSE_SCALE))
    as [et_2' p2] eqn:E2.
  cbn [fst] in Hph1, Hph2. now apply IH.
Qed.
End Calls.

(** Over the reals the calls always return, with the values of
    [EllipticTrajectory]. *)
Lemma elliptic_calls_real (self : EllipticTrajectory.state (F:=R)) (step : R) :
  EllipticCalls.get_next_position self step =
    Ret (EllipticTrajectory.get_next_position self step) /\
  EllipticCalls.get_delta self step = Ret (EllipticTrajectory.get_delta self step) /\
  forall rotation x_length y_length : R,
    EllipticCalls.__init__ rotation x_length y_length =
    Ret (EllipticTrajectory.__init__ rotation x_length y_length).
Proof.
  split; [|split].
  - now rewrite elliptic_call_get_next_position.
  - now rewrite elliptic_call_get_delta.
  - intros rotation x_length y_length.
    unfold EllipticCalls.__init__, EllipticTrajectory.__init__.
    rewrite elliptic_call_get_next_position. cbn [math.isinf Inf_R orb bind].
    destruct (EllipticTrajectory.get_next_position _ _). reflexivity.
Qed.

(** ** The elliptic sampler over the reals *)

Section EllipticReal.
Import EllipticTrajectory Ellipse.
Local Open Scope R_scope.

Lemma Rleb_true (a b : R) : Rleb a b = true <-> a <= b.
Proof. unfold Rleb. destruct (Rle_dec a b); split; intros; congruence. Qed.

Lemma Rleb_false (a b : R) : Rleb a b = false <-> b < a.
Proof.
  unfold Rleb. destruct (Rle_dec a b); split; intros; try congruence; lra.
Qed.

Lemma wrap_bound_pos : 0 < 1000 * PI.
Proof. pose proof PI_RGT_0. lra. Qed.

(** One call, at the real instance: the sampled point and the three
    cases of the wraparound. *)
Lemma real_step (self : state (F:=R)) (step : R) :
  let self' := fst (get_next_position self step) in
  snd (get_next_position self step) =
    point (rotation self) (x_length self) (y_length self) (t self + step) /\
  curr_pos self' = snd (get_next_position self step) /\
  rotation self' = rotation self /\
  x_length self' = x_length self /\
  y_length self' = y_length self /\
  ((1000 * PI <= t self + step /\ t self' = t self + step - 1000 * PI) \/
   (t self + step <= -1000 * PI /\ t self' = t self + step + 1000 * PI) \/
   ((-1000 * PI < t self + step /\ t self + step < 1000 * PI) /\
    t self' = t self + step)).
Proof.
  pose proof wrap_bound_pos as Hpos.
  unfold get_next_position, point; simpl.
  destruct (Rleb (1000 * PI) (t self + step)) eqn:Hhi; simpl.
  - apply Rleb_true in Hhi. repeat split; try reflexivity. left. now split.
  - apply Rleb_false in Hhi.
    destruct (Rleb (t self + step) (-1000 * PI)) eqn:Hlo; simpl.
    + apply Rleb_true in Hlo. repeat split; try reflexivity. right; left.
      now split.
    + apply Rleb_false in Hlo. repeat split; try reflexivity. right; right.
      repeat split; assumption.
Qed.

Lemma init_phase (rot a b : R) : t (__init__ rot a b) = 0 + 0.
Proof.
  pose proof wrap_bound_pos as Hpos.
  unfold __init__, get_next_position; simpl.
  destruct (Rleb (1000 * PI) (0 + 0)) eqn:Hhi; simpl.
  - apply Rleb_true in Hhi. lra.
  - destruct (Rleb (0 + 0) (-1000 * PI)) eqn:Hlo; simpl; [|reflexivity].
    apply Rleb_true in Hlo. lra.
Qed.

Lemma init_params (rot a b : R) :
  rotation (__init__ rot a b) = rot /\
  x_length (__init__ rot a b) = a /\
  y_length (__init__ rot a b) = b.
Proof.
  unfold __init__, get_next_position; simpl.
  repeat case_if; simpl; repeat split; reflexivity.
Qed.

Lemma small_bounds (step : R) :
  small step -> -(1000 * PI) <= step <= 1000 * PI.
Proof. unfold small, Rabs. destruct (Rcase_abs step); lra. Qed.

Lemma step_in_range (self : state (F:=R)) (step : R) :
  in_range (t self) -> small step ->
  in_range (t (fst (get_next_position self step))).
Proof.
  unfold in_range. intros [Hlo Hhi] Hs.
  pose proof wrap_bound_pos as Hpos.
  apply small_bounds in Hs.
  destruct (real_step self step) as (_ & _ & _ & _ & _ & Hcase).
  destruct Hcase as [[H1 ->]|[[H1 ->]|[[H1 H2] ->]]]; lra.
Qed.

Lemma advance_all_in_range (steps : list R) (self : state (F:=R)) :
  in_range (t self) -> Forall small steps ->
  in_range (t (advance_all self steps)).
Proof.
  revert self; induction steps as [|s steps IH]; intros self Hin Hall;
    cbn [advance_all].
  - assumption.
  - inversion Hall; subst. apply IH; [|assumption].
    now apply step_in_range.
Qed.

(** C6: started from a new sampler and advanced by steps of magnitude at
    most [1000 * PI], the phase is in [(-1000 PI, 1000 PI]] after every
    call; a call changes the phase by the step and by exactly one of:
    minus [1000 PI] when the sum is at least [1000 PI], plus [1000 PI]
    when it is at most [-1000 PI], nothing otherwise. *)
Theorem elliptic_phase_in_range (rot a b : R) (steps : list R) (step : R) :
  Forall small (steps ++ [step]) ->
  let self := advance_all (__init__ rot a b) steps in
  let self' := fst (get_next_position self step) in
  in_range (t self) /\ in_range (t self') /\
  ((1000 * PI <= t self + step /\ t self' = t self + step - 1000 * PI) \/
   (t self + step <= -1000 * PI /\ t self' = t self + step + 1000 * PI) \/
   ((-1000 * PI < t self + step /\ t self + step < 1000 * PI) /\
    t self' = t self + step)).
Proof.
  intros Hall self self'.
  apply Forall_app in Hall. destruct Hall as [Hsteps Hstep].
  inversion Hstep as [|? ? Hs _]; subst.
  assert (Hself : in_range (t self)).
  { apply advance_all_in_range; [|assumption].
    rewrite init_phase. pose proof wrap_bound_pos. unfold in_range. lra. }
  split; [assumption|]. split; [now apply step_in_range|].
  apply (real_step self step).
Qed.

Lemma elliptic_phase_in_range_witness :
  Forall small ([1] ++ [2]) /\
  in_range (t (fst (get_next_position
                      (advance_all (__init__ (F:=R) 0 200 25) [1]) 2))).
Proof.
  assert (Hsmall : Forall small ([1] ++ [2])).
  { pose proof PI2_1. simpl.
    constructor; [|constructor; [|constructor]];
      unfold small; rewrite Rabs_pos_eq; lra. }
  split; [exact Hsmall|].
  apply (elliptic_phase_in_range 0 200 25 [1] 2 Hsmall).
Defined.

(** Periodicity of the real sine and cosine, for an integer number of
    turns. *)
Lemma turns_nat (k : Z) : (0 <= k)%Z -> IZR k = INR (Z.to_nat k).
Proof. intros Hk. now rewrite INR_IZR_INZ, Z2Nat.id. Qed.

Lemma cos_turns (x : R) (k : Z) : cos (x + 2 * PI * IZR k) = cos x.
Proof.
  destruct (Z_le_gt_dec 0 k) as [Hk|Hk].
  - rewrite (turns_nat Hk).
    replace (x + 2 * PI * INR (Z.to_nat k)) with (x + 2 * INR (Z.to_nat k) * PI)
      by ring.
    apply cos_period.
  - rewrite <- (cos_period (x + 2 * PI * IZR k) (Z.to_nat (- k))).
    f_equal. rewrite <- turns_nat by lia. rewrite opp_IZR. ring.
Qed.

Lemma sin_turns (x : R) (k : Z) : sin (x + 2 * PI * IZR k) = sin x.
Proof.
  destruct (Z_le_gt_dec 0 k) as [Hk|Hk].
  - rewrite (turns_nat Hk).
    replace (x + 2 * PI * INR (Z.to_nat k)) with (x + 2 * INR (Z.to_nat k) * PI)
      by ring.
    apply sin_period.
  - rewrite <- (sin_period (x + 2 * PI * IZR k) (Z.to_nat (- k))).
    f_equal. rewrite <- turns_nat by lia. rewrite opp_IZR. ring.
Qed.

Lemma point_turns (rot a b x : R) (k : Z) :
  point rot a b (x + 2 * PI * IZR k) = point rot a b x.
Proof. unfold point. now rewrite cos_turns, sin_turns. Qed.

(** The stored phase is the sum of the steps, up to a whole number of
    corrections by [1000 * PI]. *)
Lemma advance_all_phase (steps : list R) (self : state (F:=R)) (c : R) :
  (exists m : Z, t self = c + IZR m * (1000 * PI)) ->
  (exists m : Z, t (advance_all self steps) = c + sumR steps + IZR m * (1000 * PI)) /\
  rotation (advance_all self steps) = rotation self /\
  x_length (advance_all self steps) = x_length self /\
  y_length (advance_all self steps) = y_length self.
Proof.
  revert self c; induction steps as [|s steps IH]; intros self c [m Hm];
    cbn [advance_all sumR].
  - split; [|repeat split; reflexivity]. exists m. rewrite Hm. ring.
  - destruct (real_step self s) as (_ & _ & Hr & Ha & Hb & Hcase).
    destruct (IH (fst (get_next_position self s)) (c + s)) as (Hphase & Hr' & Ha' & Hb').
    + destruct Hcase as [[_ E]|[[_ E]|[_ E]]]; rewrite E, Hm.
      * exists (m - 1)%Z. rewrite minus_IZR. ring.
      * exists (m + 1)%Z. rewrite plus_IZR. ring.
      * exists m. ring.
    + split; [|split; [|split]].
      * destruct Hphase as [m' Hm']. exists m'. rewrite Hm'. ring.
      * now rewrite Hr'.
      * now rewrite Ha'.
      * now rewrite Hb'.
Qed.

(** C7: the sampled position has period [2 PI] in the phase: two calls
    on samplers with the same ellipse whose phases after adding the step
    differ by [2 PI k], [k] an integer, return the same position; and
    whatever corrections by [1000 PI] have happened before, a call
    returns the point of the ellipse at the plain sum of all steps. *)
Theorem elliptic_position_periodic :
  (forall (self1 self2 : state (F:=R)) (step1 step2 : R) (k : Z),
      rotation self1 = rotation self2 ->
      x_length self1 = x_length self2 ->
      y_length self1 = y_length self2 ->
      t self1 + step1 = t self2 + step2 + 2 * PI * IZR k ->
      snd (get_next_position self1 step1) = snd (get_next_position self2 step2)) /\
  (forall (rot a b : R) (steps : list R) (step : R),
      snd (get_next_position (advance_all (__init__ rot a b) steps) step) =
      point rot a b (sumR steps + step)).
Proof.
  split.
  - intros self1 self2 step1 step2 k Hr Ha Hb Hphase.
    destruct (real_step self1 step1) as (-> & _).
    destruct (real_step self2 step2) as (-> & _).
    rewrite Hr, Ha, Hb, Hphase. apply point_turns.
  - intros rot a b steps step.
    destruct (real_step (advance_all (__init__ rot a b) steps) step) as (-> & _).
    destruct (init_params rot a b) as (Hr & Ha & Hb).
    destruct (@advance_all_phase steps (__init__ rot a b) 0) as ([m Hm] & Hr' & Ha' & Hb').
    { exists 0%Z. rewrite init_phase. ring. }
    rewrite Hr', Ha', Hb', Hr, Ha, Hb, Hm.
    replace (0 + sumR steps + IZR m * (1000 * PI) + step)
      with (sumR steps + step + 2 * PI * IZR (500 * m)).
    + apply point_turns.
    + rewrite mult_IZR. ring.
Qed.

Lemma elliptic_position_periodic_witness :
  snd (get_next_position (__init__ (F:=R) 0 200 25) (2 * PI * IZR 3)) =
  snd (get_next_position (__init__ (F:=R) 0 200 25) 0).
Proof.
  apply (proj1 elliptic_position_periodic _ _ _ _ 3%Z);
    try reflexivity.
  ring.
Defined.
End EllipticReal.

(** ** The zero-duration skip loop, for any numbers *)

Section SkipLoop.
Context {F : Type} `{Num F}.
Import InterpolatedTrajectory.

Variable nodes : list (list F).
Hypothesis ACCEPTED : accepted nodes.

Lemma accepted_nonempty : (0 < length nodes)%nat.
Proof.
  destruct ACCEPTED as (_ & nd & Hin & _).
  destruct nodes; [destruct Hin|cbn [length]; lia].
Qed.

Lemma next_index_mod (i : nat) :
  (i < length nodes)%nat ->
  _get_next_index nodes i = Nat.modulo (i + 1) (length nodes).
Proof.
  intros Hi. unfold _get_next_index.
  destruct (Nat.leb_spec (length nodes) (i + 1)) as [Hle|Hlt].
  - replace (i + 1)%nat with (length nodes) by lia. now rewrite Nat.Div0.mod_same.
  - now rewrite Nat.mod_small.
Qed.

Lemma next_index_lt (i : nat) :
  (_get_next_index nodes i < length nodes)%nat.
Proof.
  pose proof accepted_nonempty. unfold _get_next_index.
  destruct (Nat.leb_spec (length nodes) (i + 1)); lia.
Qed.

Lemma iter_next_index (d i : nat) :
  (i < length nodes)%nat ->
  Nat.iter d (_get_next_index nodes) i = Nat.modulo (i + d) (length nodes).
Proof.
  intros Hi. induction d as [|d IH].
  - change (Nat.iter 0 (_get_next_index nodes) i) with i.
    rewrite Nat.add_0_r. now rewrite Nat.mod_small.
  - rewrite Nat.iter_succ, IH, next_index_mod.
    + rewrite Nat.Div0.add_mod_idemp_l. f_equal. lia.
    + apply Nat.mod_upper_bound. lia.
Qed.

Lemma third_field (i : nat) :
  (i < length nodes)%nat -> exists d, getitem2 nodes i 2 = Ret d.
Proof.
  intros Hi. destruct ACCEPTED as (Hlen & _).
  unfold getitem2, getitem. rewrite (nth_error_nth' nodes [] Hi). cbn [bind].
  rewrite Forall_forall in Hlen. specialize (Hlen _ (nth_In nodes [] Hi)).
  destruct (nth i nodes []) as [|x [|y [|d [|? ?]]]]; try discriminate Hlen.
  now exists d.
Qed.

Lemma go_next_positioned (self : state) :
  positioned nodes self ->
  exists self',
    _go_to_next_index self = Ret self' /\
    positioned nodes self' /\
    index self' = _get_next_index nodes (index self).
Proof.
  intros (Hnodes & Hidx & Hnext & Htarget).
  unfold _go_to_next_index.
  fields. rewrite Hnodes, Hnext.
  destruct (third_field (next_index_lt (index self))) as [d Hd].
  rewrite Hd. cbn [bind]. eexists. split; [reflexivity|].
  unfold positioned. fields.
  split_and; try reflexivity; try assumption. apply next_index_lt.
Qed.

Lemma init_positioned (self : state) :
  __init__ nodes = Ret self -> positioned nodes self.
Proof.
  destruct ACCEPTED as (Hlen & _).
  unfold __init__. rewrite (check_nodes_ok (nodes:=nodes) false) by exact Hlen.
  cbn [bind orb]. destruct (existsb nonzero_time nodes); cbn [negb]; [|discriminate].
  unfold getitem at 1.
  rewrite (nth_error_nth' nodes [] accepted_nonempty). cbn [bind].
  destruct (third_field accepted_nonempty) as [d Hd].
  pose proof Hd as Hd'. unfold getitem2, getitem at 1 in Hd'.
  rewrite (nth_error_nth' nodes [] accepted_nonempty) in Hd'. cbn [bind] in Hd'.
  rewrite Hd'. cbn [bind]. intros E. injection E as <-.
  unfold positioned. fields.
  split_and; try reflexivity; [apply accepted_nonempty|exact Hd].
Qed.

(** If the waypoint reached after [d] moves has a non-zero time, the skip
    loop stops within [d] turns. *)
Lemma skip_zero_within (d : nat) :
  forall self : state,
    positioned nodes self ->
    (exists t, getitem2 nodes (Nat.iter d (_get_next_index nodes) (index self)) 2
               = Ret t /\ eqb t (of_int 0) = false) ->
    exists self',
      (forall fuel, (d <= fuel)%nat -> skip_zero_loop fuel self = Ret self') /\
      positioned nodes self' /\
      eqb (target_time self') (of_int 0) = false.
Proof.
  induction d as [|d IH]; intros self Hp (t & Ht & Hnz).
  - change (Nat.iter 0 (_get_next_index nodes) (index self)) with (index self) in Ht.
    pose proof Hp as (_ & _ & _ & Htarget).
    assert (t = target_time self) by congruence. subst t.
    exists self. split_and; try assumption.
    intros fuel _. destruct fuel; cbn [skip_zero_loop]; now rewrite Hnz.
  - destruct (eqb (target_time self) (of_int 0)) eqn:Hz.
    + destruct (go_next_positioned Hp) as (self1 & Hgo & Hp1 & Hi1).
      destruct (IH self1 Hp1) as (self' & Hrun & Hp' & Hnz').
      { exists t. rewrite Hi1, <- Nat.iter_succ_r. now split. }
      exists self'. split_and; try assumption.
      intros [|fuel] Hfuel; [lia|]. cbn [skip_zero_loop].
      rewrite Hz, Hgo. cbn [bind]. apply Hrun. lia.
    + exists self. split_and; try assumption.
      intros fuel _. destruct fuel; cbn [skip_zero_loop]; now rewrite Hz.
Qed.

(** The skip loop stops within [len(nodes)] turns, whatever the
    arithmetic: it only compares times with zero. *)
Lemma skip_zero_terminates (self : state) :
  positioned nodes self ->
  exists self',
    (forall fuel, (length nodes <= fuel)%nat ->
       skip_zero_loop fuel self = Ret self') /\
    positioned nodes self' /\
    eqb (target_time self') (of_int 0) = false.
Proof.
  intros Hp. pose proof Hp as (_ & Hidx & _).
  destruct ACCEPTED as (Hlen & nd & Hin & Hnz).
  apply In_nth with (d := []) in Hin. destruct Hin as (p & Hp_lt & Hnd).
  set (d := Nat.modulo (p + length nodes - index self) (length nodes)).
  assert (Hd : (d < length nodes)%nat).
  { apply Nat.mod_upper_bound. lia. }
  destruct (@skip_zero_within d self Hp) as (self' & Hrun & Hp' & Hnz').
  - rewrite iter_next_index by assumption. unfold d.
    rewrite Nat.Div0.add_mod_idemp_r.
    replace (index self + (p + length nodes - index self))%nat
      with (p + 1 * length nodes)%nat by lia.
    rewrite Nat.Div0.mod_add, Nat.mod_small by assumption.
    unfold getitem2, getitem. rewrite (nth_error_nth' nodes [] Hp_lt), Hnd.
    cbn [bind]. unfold nonzero_time in Hnz.
    destruct (nth_error nd 2) as [t|]; [|discriminate Hnz].
    exists t. split; [reflexivity|]. now destruct (eqb t (of_int 0)).
  - exists self'. split_and; try assumption.
    intros fuel Hfuel. apply Hrun. lia.
Qed.
End SkipLoop.

(** ** The interpolator, for any numbers *)

Section Frame.
Context {F : Type} `{Num F}.
Import InterpolatedTrajectory.
Local Open Scope py_scope.

Lemma same_frame_refl (self : state (F:=F)) : same_frame self self.
Proof. unfold same_frame. now split_and. Qed.

Lemma same_frame_trans (a b c : state (F:=F)) :
  same_frame a b -> same_frame b c -> same_frame a c.
Proof.
  unfold same_frame. intros (? & ? & ? & ?) (? & ? & ? & ?).
  split_and; congruence.
Qed.

Lemma go_next_frame (self self' : state (F:=F)) :
  _go_to_next_index self = Ret self' -> same_frame self self'.
Proof.
  unfold _go_to_next_index. intros Hgo. bind_inv Hgo d E.
  injection Hgo as <-. unfold same_frame. fields. now split_and.
Qed.

Lemma skip_zero_frame (fuel : nat) :
  forall self self' : state (F:=F),
    skip_zero_loop fuel self = Ret self' -> same_frame self self'.
Proof.
  induction fuel as [|fuel IH]; intros self self'; cbn [skip_zero_loop];
    destruct (target_time self == of_int 0).
  - discriminate.
  - intros E; injection E as <-. apply same_frame_refl.
  - intros Hrun. bind_inv Hrun self1 Hgo.
    eapply same_frame_trans; [eapply go_next_frame; eassumption|]. now apply IH.
  - intros E; injection E as <-. apply same_frame_refl.
Qed.

Lemma overshoot_frame (fuel : nat) :
  forall (r r' : F) (self self' : state (F:=F)),
    overshoot_loop fuel r self = Ret (r', self') -> same_frame self self'.
Proof.
  induction fuel as [|fuel IH]; intros r r' self self'; cbn [overshoot_loop];
    destruct (r >= target_time self).
  - discriminate.
  - intros E; injection E as _ <-. apply same_frame_refl.
  - intros Hrun. bind_inv Hrun self1 Hgo.
    eapply same_frame_trans; [eapply go_next_frame; eassumption|].
    now apply IH in Hrun.
  - intros E; injection E as _ <-. apply same_frame_refl.
Qed.

(** A call that returns has made the old position the last one and stored
    a new 2-tuple, which is also what it returns; the waypoint list is the
    same object as before. *)
Lemma get_next_position_frame (fuel : nat) (self self' : state (F:=F)) (step : F)
    (p : list F) :
  get_next_position fuel self step = Ret (self', p) ->
  nodes self' = nodes self /\
  last_pos self' = curr_pos self /\
  exists a b, curr_pos self' = [a; b] /\ p = [a; b].
Proof.
  unfold get_next_position. intros Hrun.
  bind_inv Hrun self1 Hskip. apply skip_zero_frame in Hskip.
  bind_inv Hrun self2 Hmove.
  assert (Hframe : nodes self2 = nodes self /\ curr_pos self2 = curr_pos self).
  { destruct Hskip as (Hn1 & _ & _ & Hc1).
    destruct (time self1 + step >= target_time self1).
    - bind_inv Hmove self3 Hgo. apply go_next_frame in Hgo.
      bind_inv Hmove rs Hover. destruct rs as [r self4].
      apply overshoot_frame in Hover. injection Hmove as <-.
      destruct Hgo as (Hn3 & _ & _ & Hc3). destruct Hover as (Hn4 & _ & _ & Hc4).
      fields. split; congruence.
    - injection Hmove as <-. fields. now split. }
  destruct Hframe as [Hn2 Hc2].
  bind_inv Hrun start_x Ex. bind_inv Hrun next_x Enx.
  bind_inv Hrun start_y Ey. bind_inv Hrun next_y Eny.
  bind_inv Hrun off_x Eox. bind_inv Hrun off_y Eoy.
  injection Hrun as <- <-. fields. split_and; try assumption.
  eexists. eexists. split; reflexivity.
Qed.

(** X2: when [get_delta] returns, the delta is the new position minus the
    position held before the call, which becomes [last_pos]. *)
Theorem interpolated_get_delta_spec (fuel : nat) (self self' : state (F:=F)) (step : F)
    (x y : F) (delta : F * F) :
  curr_pos self = [x; y] ->
  get_delta fuel self step = Ret (self', delta) ->
  exists x' y',
    get_next_position fuel self step = Ret (self', [x'; y']) /\
    curr_pos self' = [x'; y'] /\
    last_pos self' = [x; y] /\
    delta = (x' - x, y' - y).
Proof.
  intros Hcurr. unfold get_delta. intros Hrun.
  bind_inv Hrun sp Hnext. destruct sp as [self1 p].
  destruct (get_next_position_frame fuel self step Hnext) as (_ & Hlast & a & b & Hc & Hp).
  rewrite Hc, Hlast, Hcurr in Hrun. cbn [getitem nth_error bind] in Hrun.
  injection Hrun as <- <-. exists a, b. subst p. rewrite <- Hcurr.
  now split_and.
Qed.
End Frame.

(** ** Indices stay in range, for any numbers *)

Section Positioned.
Context {F : Type} `{Num F}.
Import InterpolatedTrajectory.
Local Open Scope py_scope.

Variable nodes : list (list F).
Hypothesis ACCEPTED : accepted nodes.

Lemma field_exists (i j : nat) :
  (i < length nodes)%nat -> (j < 3)%nat -> exists d, getitem2 nodes i j = Ret d.
Proof.
  intros Hi Hj. destruct ACCEPTED as (Hlen & _).
  unfold getitem2, getitem. rewrite (nth_error_nth' nodes [] Hi). cbn [bind].
  rewrite Forall_forall in Hlen. specialize (Hlen _ (nth_In nodes [] Hi)).
  destruct (nth i nodes []) as [|a [|b [|c [|? ?]]]]; try discriminate Hlen.
  destruct j as [|[|[|j]]]; [now exists a|now exists b|now exists c|lia].
Qed.

(** On an accepted list the constructor returns, positioned at waypoint 0
    with elapsed time zero and a 2-tuple as position. *)
Lemma init_accepted :
  exists self : state,
    __init__ nodes = Ret self /\
    positioned nodes self /\
    index self = 0%nat /\
    time self = of_int 0 /\
    length (curr_pos self) = 2%nat.
Proof.
  pose proof ACCEPTED as (Hlen & nd & Hin & Hnz).
  unfold __init__. rewrite (check_nodes_ok (nodes:=nodes) false) by exact Hlen.
  replace (existsb nonzero_time nodes) with true
    by (symmetry; apply existsb_exists; eauto).
  cbn [bind orb negb].
  pose proof (accepted_nonempty ACCEPTED) as Hn.
  unfold getitem at 1. rewrite (nth_error_nth' nodes [] Hn). cbn [bind].
  destruct (third_field ACCEPTED Hn) as [d Hd].
  pose proof Hd as Hd'. unfold getitem2, getitem at 1 in Hd'.
  rewrite (nth_error_nth' nodes [] Hn) in Hd'. cbn [bind] in Hd'.
  rewrite Hd'. cbn [bind]. eexists. split; [reflexivity|].
  unfold positioned. fields. split_and; try reflexivity; try assumption.
  rewrite Forall_forall in Hlen. specialize (Hlen _ (nth_In nodes [] Hn)).
  destruct (nth 0 nodes []) as [|a [|b [|c [|? ?]]]]; try discriminate Hlen.
  reflexivity.
Qed.

Lemma set_time_positioned (self : state) (v : F) :
  positioned nodes self -> positioned nodes (set_time self v).
Proof. unfold positioned. fields. tauto. Qed.

Lemma skip_zero_positioned (fuel : nat) :
  forall self : state,
    positioned nodes self ->
    match skip_zero_loop fuel self with
    | Ret self' => positioned nodes self'
    | Raise _ => False
    | OutOfFuel => True
    end.
Proof.
  induction fuel as [|fuel IH]; intros self Hp; cbn [skip_zero_loop];
    destruct (target_time self == of_int 0); try exact I; try exact Hp.
  destruct (go_next_positioned ACCEPTED Hp) as (self1 & Hgo & Hp1 & _).
  rewrite Hgo. cbn [bind]. now apply IH.
Qed.

Lemma overshoot_positioned (fuel : nat) :
  forall (r : F) (self : state),
    positioned nodes self ->
    match overshoot_loop fuel r self with
    | Ret (_, self') => positioned nodes self'
    | Raise _ => False
    | OutOfFuel => True
    end.
Proof.
  induction fuel as [|fuel IH]; intros r self Hp; cbn [overshoot_loop];
    destruct (r >= target_time self); try exact I; try exact Hp.
  destruct (go_next_positioned ACCEPTED Hp) as (self1 & Hgo & Hp1 & _).
  rewrite Hgo. cbn [bind]. now apply IH.
Qed.

(** X1: on a list that the constructor accepted, a call of
    [get_next_position] from a state positioned at one of its waypoints
    never raises [IndexError]: it returns, positioned again, or it raises
    [ZeroDivisionError], or it does not terminate. *)
Theorem get_next_position_in_range (fuel : nat) (self : state) (step : F) :
  positioned nodes self ->
  match get_next_position fuel self step with
  | Ret (self', p) =>
      positioned nodes self' /\ p = curr_pos self' /\ length p = 2%nat
  | Raise e => e = ZeroDivisionError
  | OutOfFuel => True
  end.
Proof.
  intros Hp. unfold get_next_position.
  pose proof (skip_zero_positioned fuel Hp) as Hskip.
  destruct (skip_zero_loop fuel self) as [self1| |]; cbn [bind];
    [|contradiction|exact I].
  assert (Hmove :
    match (if time self1 + step >= target_time self1 then
             let remaining_step := step - (target_time self1 - time self1) in
             self <- _go_to_next_index self1 ;;
             '(remaining_step, self) <- overshoot_loop fuel remaining_step self ;;
             Ret (set_time self remaining_step)
           else Ret (set_time self1 (time self1 + step)))%py with
    | Ret self2 => positioned nodes self2
    | Raise _ => False
    | OutOfFuel => True
    end).
  { destruct (time self1 + step >= target_time self1).
    - destruct (go_next_positioned ACCEPTED Hskip) as (self2 & Hgo & Hp2 & _).
      cbv zeta. rewrite Hgo. cbn [bind].
      pose proof (overshoot_positioned fuel
                    (step - (target_time self1 - time self1)) Hp2) as Hover.
      destruct (overshoot_loop fuel _ self2) as [[r self3]| |]; cbn [bind];
        [|contradiction|exact I].
      now apply set_time_positioned.
    - now apply set_time_positioned. }
  match goal with
  | |- context [bind ?c _] => destruct c as [self2| |]
  end; cbn [bind]; [|contradiction|exact I].
  pose proof Hmove as (Hnodes & Hidx & Hnext & _).
  pose proof (next_index_lt ACCEPTED (index self2)) as Hnlt.
  rewrite <- Hnext in Hnlt. rewrite Hnodes.
  destruct (@field_exists (index self2) 0) as [sx ->]; [assumption|lia|].
  cbn [bind].
  destruct (@field_exists (next_index self2) 0) as [nx ->]; [assumption|lia|].
  cbn [bind].
  destruct (@field_exists (index self2) 1) as [sy ->]; [assumption|lia|].
  cbn [bind].
  destruct (@field_exists (next_index self2) 1) as [ny ->]; [assumption|lia|].
  cbn [bind]. fields. unfold truediv.
  destruct (eqb (target_time self2) (of_int 0)); cbn [bind]; [reflexivity|].
  split_and; try reflexivity. unfold positioned in *. fields. tauto.
Qed.

Lemma go_next_times_spec (k : nat) :
  forall self : state,
    positioned nodes self ->
    exists self',
      go_next_times k self = Ret self' /\
      positioned nodes self' /\
      index self' = Nat.modulo (index self + k) (length nodes) /\
      same_frame self self'.
Proof.
  induction k as [|k IH]; intros self Hp.
  - exists self. cbn [go_next_times]. split_and; try assumption.
    + reflexivity.
    + rewrite Nat.add_0_r, Nat.mod_small; [reflexivity|]. apply Hp.
    + apply same_frame_refl.
  - destruct (go_next_positioned ACCEPTED Hp) as (self1 & Hgo & Hp1 & Hi1).
    destruct (IH self1 Hp1) as (self' & Hrun & Hp' & Hi' & Hf').
    exists self'. cbn [go_next_times]. rewrite Hgo. cbn [bind].
    split_and; try assumption.
    + rewrite Hi', Hi1, next_index_mod by apply Hp.
      rewrite Nat.Div0.add_mod_idemp_l. f_equal. lia.
    + eapply same_frame_trans; [eapply go_next_frame; eassumption|assumption].
Qed.

(** X3: [_go_to_next_index] walks the list cyclically and never leaves
    it: [k] calls from index [i] return with index [(i + k) mod len], and
    [len] calls give back the state they started from. *)
Theorem go_to_next_index_cycles (k : nat) (self : state) :
  positioned nodes self ->
  (exists self',
     go_next_times k self = Ret self' /\
     index self' = Nat.modulo (index self + k) (length nodes) /\
     (index self' < length nodes)%nat) /\
  go_next_times (length nodes) self = Ret self.
Proof.
  intros Hp. split.
  - destruct (go_next_times_spec k Hp) as (self' & Hrun & Hp' & Hi' & _).
    exists self'. split_and; try assumption. apply Hp'.
  - destruct (go_next_times_spec (length nodes) Hp)
      as (self' & Hrun & Hp' & Hi' & Hn & Ht & Hl & Hc).
    rewrite Hrun. f_equal.
    pose proof Hp as (Hnodes & Hidx & Hnext & Htarget).
    pose proof Hp' as (Hnodes' & Hidx' & Hnext' & Htarget').
    replace (index self + length nodes)%nat
      with (index self + 1 * length nodes)%nat in Hi' by lia.
    rewrite Nat.Div0.mod_add, Nat.mod_small in Hi' by assumption.
    rewrite Hi' in Hnext', Htarget'.
    assert (Htt : target_time self' = target_time self) by congruence.
    destruct self, self'. cbn in *. congruence.
Qed.
End Positioned.

(** ** More on the elliptic sampler *)

Section EllipticDelta.
Context {F : Type} `{Num F} `{math.Trig F}.
Import EllipticTrajectory.

(** [get_delta] in terms of [get_next_position]. *)
Lemma elliptic_get_delta_unfold (self : state (F:=F)) (step : F) :
  get_delta self step =
  (fst (get_next_position self step),
   (sub (fst (snd (get_next_position self step))) (fst (curr_pos self)),
    sub (snd (snd (get_next_position self step))) (snd (curr_pos self)))).
Proof.
  unfold get_delta, get_next_position. cbn.
  repeat case_if; reflexivity.
Qed.

Lemma elliptic_curr_pos_after (self : state (F:=F)) (step : F) :
  curr_pos (fst (get_next_position self step)) = snd (get_next_position self step).
Proof. unfold get_next_position. cbn. repeat case_if; reflexivity. Qed.
End EllipticDelta.

Section EllipticRealMore.
Import EllipticTrajectory Ellipse.
Local Open Scope R_scope.

(** X9: a new sampler has phase 0 and stands, with [last_pos] equal to
    [curr_pos], at the end of the ellipse's x-axis:
    [(x_length cos rotation, x_length sin rotation)]. *)
Theorem elliptic_init_position (rot a b : R) :
  t (__init__ rot a b) = 0 /\
  curr_pos (__init__ rot a b) = (a * cos rot, a * sin rot) /\
  last_pos (__init__ rot a b) = curr_pos (__init__ rot a b) /\
  rotation (__init__ rot a b) = rot /\
  x_length (__init__ rot a b) = a /\
  y_length (__init__ rot a b) = b.
Proof.
  destruct (init_params rot a b) as (Hr & Ha & Hb).
  split_and; try assumption.
  - rewrite init_phase. ring.
  - unfold __init__.
    destruct (get_next_position _ _) as [self pos] eqn:E. cbn.
    assert (Hpos : pos = snd (get_next_position
                                (mk rot a b (of_int 0) (of_int 0, of_int 0)
                                    (of_int 0, of_int 0)) (of_int 0)))
      by now rewrite E.
    rewrite Hpos.
    destruct (real_step (mk rot a b (of_int 0) (of_int 0, of_int 0)
                            (of_int 0, of_int 0)) (of_int 0)) as (-> & _).
    unfold point. cbn [rotation x_length y_length EllipticTrajectory.t of_int Num_R].
    rewrite Rplus_0_l, cos_0, sin_0. f_equal; ring.
  - unfold __init__.
    destruct (get_next_position _ _) as [self pos]. reflexivity.
Qed.

(** X10: every sampled position lies on the ellipse: turned back by the
    rotation it is [(x_length cos t, y_length sin t)], [t] the phase after
    adding the step, and so satisfies the equation of the ellipse with
    half-axes [x_length] and [y_length]. *)
Theorem position_on_ellipse (self : state (F:=R)) (step : R) :
  let x := fst (snd (get_next_position self step)) in
  let y := snd (snd (get_next_position self step)) in
  let theta := rotation self in
  let u := x * cos theta + y * sin theta in
  let v := - x * sin theta + y * cos theta in
  u = x_length self * cos (t self + step) /\
  v = y_length self * sin (t self + step) /\
  (y_length self * u) ^ 2 + (x_length self * v) ^ 2
  = (x_length self * y_length self) ^ 2.
Proof.
  intros x y theta u v.
  destruct (real_step self step) as (Hpoint & _).
  unfold point in Hpoint.
  assert (Hx : x = x_length self * cos (t self + step) * cos theta
                   - y_length self * sin (t self + step) * sin theta)
    by (unfold x; now rewrite Hpoint).
  assert (Hy : y = x_length self * cos (t self + step) * sin theta
                   + y_length self * sin (t self + step) * cos theta)
    by (unfold y; now rewrite Hpoint).
  pose proof (sin2_cos2 theta) as Hth. unfold Rsqr in Hth.
  pose proof (sin2_cos2 (t self + step)) as Hph. unfold Rsqr in Hph.
  assert (Hu : u = x_length self * cos (t self + step)).
  { unfold u. rewrite Hx, Hy.
    transitivity (x_length self * cos (t self + step)
                  * (sin theta * sin theta + cos theta * cos theta)); [ring|].
    rewrite Hth. ring. }
  assert (Hv : v = y_length self * sin (t self + step)).
  { unfold v. rewrite Hx, Hy.
    transitivity (y_length self * sin (t self + step)
                  * (sin theta * sin theta + cos theta * cos theta)); [ring|].
    rewrite Hth. ring. }
  split_and; try assumption.
  rewrite Hu, Hv.
  transitivity ((x_length self * y_length self) ^ 2
                * (sin (t self + step) * sin (t self + step)
                   + cos (t self + step) * cos (t self + step))); [ring|].
  rewrite Hph. ring.
Qed.

(** X11: the deltas of successive calls add up to the displacement: the
    sum of the [n] deltas is the position after the [n] calls minus the
    position before them. *)
Theorem elliptic_deltas_telescope (n : nat) (et : state (F:=R)) (step : R) :
  sum_deltas (child_deltas n et step) =
  (fst (curr_pos (advance_all et (repeat step n))) - fst (curr_pos et),
   snd (curr_pos (advance_all et (repeat step n))) - snd (curr_pos et)).
Proof.
  revert et. induction n as [|n IH]; intros et.
  - cbn [child_deltas sum_deltas repeat advance_all]. f_equal; ring.
  - cbn [child_deltas sum_deltas repeat advance_all].
    rewrite elliptic_get_delta_unfold, IH. cbn [fst snd sub Num_R].
    rewrite <- elliptic_curr_pos_after. f_equal; ring.
Qed.
End EllipticRealMore.

(** ** The composed deltas, over the reals *)

Section DrawnPath.
Local Open Scope R_scope.


End DrawnPath.

(** ** The waypoint cycle in exact arithmetic *)

Section CycleFacts.
Import InterpolatedTrajectory Cycle.
Local Open Scope Q_scope.

Lemma sumQ_firstn_S (l : list Q) (i : nat) :
  (i < length l)%nat ->
  sumQ (firstn (S i) l) == sumQ (firstn i l) + nth i l 0.
Proof.
  revert i; induction l as [|x l IH]; intros i Hi; simpl in Hi; [lia|].
  destruct i as [|i].
  - cbn [firstn sumQ nth]. Lqa.lra.
  - change (firstn (S (S i)) (x :: l)) with (x :: firstn (S i) l).
    change (firstn (S i) (x :: l)) with (x :: firstn i l).
    cbn [sumQ nth]. rewrite IH by lia. Lqa.lra.
Qed.

Lemma laps_nonneg (k : nat) (lap : Q) : 0 <= lap -> 0 <= laps k lap.
Proof. intros Hl. induction k as [|k IH]; cbn [laps]; Lqa.lra. Qed.

Lemma laps_add (j k : nat) (lap : Q) :
  laps (j + k) lap == laps j lap + laps k lap.
Proof.
  induction j as [|j IH]; cbn [Nat.add laps]; [Lqa.lra|]. rewrite IH. Lqa.lra.
Qed.

Lemma laps_lt (j k : nat) (lap : Q) :
  0 <= lap -> (j < k)%nat -> laps j lap + lap <= laps k lap.
Proof.
  intros Hl Hjk. replace k with (S j + (k - S j))%nat by lia.
  rewrite laps_add. cbn [laps]. pose proof (laps_nonneg (k - S j) Hl). Lqa.lra.
Qed.

(** Every rational is below some number of laps. *)
Lemma laps_archimedean (q lap : Q) : 0 < lap -> exists k, q < laps k lap.
Proof.
  intros Hl.
  assert (Hlin : forall k, laps k lap == inject_Z (Z.of_nat k) * lap).
  { induction k as [|k IH].
    - cbn [laps Z.of_nat]. change (inject_Z 0) with 0. ring.
    - cbn [laps]. rewrite IH, Nat2Z.inj_succ. unfold Z.succ.
      rewrite inject_Z_plus. change (inject_Z 1) with 1. ring. }
  exists (Z.to_nat (Qceiling (q / lap)) + 1)%nat.
  rewrite Hlin, Nat2Z.inj_add, inject_Z_plus.
  assert (Hne : ~ lap == 0) by (intros E; rewrite E in Hl; Lqa.lra).
  assert (Hq : q == q / lap * lap) by (field; exact Hne).
  pose proof (Qle_ceiling (q / lap)) as Hc.
  assert (Hz : inject_Z (Qceiling (q / lap))
               <= inject_Z (Z.of_nat (Z.to_nat (Qceiling (q / lap))))).
  { rewrite <- Zle_Qle. lia. }
  assert (Hm : q / lap * lap
               <= inject_Z (Z.of_nat (Z.to_nat (Qceiling (q / lap)))) * lap).
  { apply Qmult_le_compat_r; Lqa.lra. }
  change (inject_Z (Z.of_nat 1)) with 1. Lqa.lra.
Qed.

(** The first waypoint of positive duration exists, and only waypoints of
    duration zero come before it. *)
Lemma first_positive_spec (l : list (list Q)) :
  Forall (fun nd => 0 <= duration nd) l ->
  Exists (fun nd => 0 < duration nd) l ->
  (first_positive l < length l)%nat /\
  0 < duration (nth (first_positive l) l []) /\
  start l (first_positive l) == 0.
Proof.
  unfold start. induction l as [|nd rest IH]; intros Hnn Hex.
  - inversion Hex.
  - inversion Hnn as [|? ? Hnd Hrest]; subst. cbn [first_positive].
    destruct (Qle_bool (duration nd) 0) eqn:E.
    + apply Qle_bool_iff in E.
      assert (Hex' : Exists (fun nd => 0 < duration nd) rest).
      { inversion Hex as [? ? Hpos|]; subst; [Lqa.lra|assumption]. }
      destruct (IH Hrest Hex') as (Hlt & Hpos & Hsum).
      cbn [length nth map firstn sumQ]. split_and; [lia|assumption|].
      rewrite Hsum. Lqa.lra.
    + cbn [length nth map firstn sumQ]. split_and; [lia| |Lqa.lra].
      apply Qnot_le_lt. intros Hle. apply Qle_bool_iff in Hle. congruence.
Qed.

(** Equal times in a segment give equal points. *)
Lemma interpolate_proper (l : list (list Q)) (i : nat) (e1 e2 : Q) :
  e1 == e2 -> pos_eq (interpolate l i e1) (interpolate l i e2).
Proof.
  intros He. unfold interpolate, pos_eq.
  constructor; [now rewrite He|]. constructor; [now rewrite He|]. constructor.
Qed.

Section Nodes.
Variable nodes : list (list Q).
Hypothesis WF : well_formed nodes.

Local Abbreviation n := (length nodes).
Local Abbreviation dur i := (duration (nth i nodes [])).
Local Abbreviation T := (total nodes).

Lemma arity (i : nat) : (i < n)%nat -> length (nth i nodes []) = 3%nat.
Proof.
  intros Hi. destruct WF as (Hlen & _ & _).
  rewrite Forall_forall in Hlen. apply Hlen, nth_In, Hi.
Qed.

Lemma dur_nonneg (i : nat) : 0 <= dur i.
Proof.
  destruct (Nat.lt_ge_cases i n) as [Hi|Hi].
  - destruct WF as (_ & Hnn & _). rewrite Forall_forall in Hnn.
    apply Hnn, nth_In, Hi.
  - rewrite nth_overflow by exact Hi. apply Qle_refl.
Qed.

Lemma n_pos : (0 < n)%nat.
Proof.
  destruct WF as (_ & _ & Hex). apply Exists_exists in Hex.
  destruct Hex as [nd [Hin _]].
  destruct nodes; [destruct Hin|simpl; lia].
Qed.

Lemma start_0 : start nodes 0 = 0.
Proof. reflexivity. Qed.

Lemma start_S (i : nat) :
  (i < n)%nat -> start nodes (S i) == start nodes i + dur i.
Proof.
  intros Hi. unfold start. rewrite sumQ_firstn_S by now rewrite length_map.
  rewrite <- (map_nth duration). reflexivity.
Qed.

Lemma start_n : start nodes n = total nodes.
Proof.
  unfold start, total. rewrite <- (length_map duration).
  now rewrite firstn_all.
Qed.

Lemma start_mono (i j : nat) :
  (i <= j <= n)%nat -> start nodes i <= start nodes j.
Proof.
  intros [Hij Hj]. induction Hij as [|j Hij IH]; [Lqa.lra|].
  rewrite start_S by lia. pose proof (dur_nonneg j). specialize (IH ltac:(lia)). Lqa.lra.
Qed.

Lemma start_nonneg (i : nat) : (i <= n)%nat -> 0 <= start nodes i.
Proof. intros Hi. rewrite <- start_0. apply start_mono. lia. Qed.

Lemma total_pos : 0 < total nodes.
Proof.
  destruct WF as (_ & _ & Hex). apply Exists_exists in Hex.
  destruct Hex as [nd [Hin Hpos]].
  apply In_nth with (d := []) in Hin. destruct Hin as [i [Hi <-]].
  rewrite <- start_n.
  pose proof (@start_mono (S i) n ltac:(lia)) as Hm.
  pose proof (start_S Hi) as HS. pose proof (@start_nonneg i ltac:(lia)).
  Lqa.lra.
Qed.

(** Leaving segment [i] leads to the start of the next one, a lap
    later when the cycle wraps. *)
Lemma start_next (i : nat) :
  (i < n)%nat ->
  exists k, start nodes i + dur i ==
            start nodes (Nat.modulo (i + 1) n) + laps k (total nodes).
Proof.
  intros Hi. destruct (Nat.eq_dec (i + 1) n) as [E|E].
  - exists 1%nat. rewrite E, Nat.Div0.mod_same. rewrite <- start_S by exact Hi.
    replace (S i) with n by lia. rewrite start_n, start_0. cbn [laps]. Lqa.lra.
  - exists 0%nat. rewrite Nat.mod_small by lia. rewrite <- start_S by exact Hi.
    replace (i + 1)%nat with (S i) by lia. cbn [laps]. Lqa.lra.
Qed.

(** A position within a lap determines the segment and the time spent
    in it. *)
Lemma phase_unique (i1 i2 k1 k2 : nat) (e1 e2 : Q) :
  (i1 < n)%nat -> (i2 < n)%nat ->
  0 <= e1 -> e1 < dur i1 -> 0 <= e2 -> e2 < dur i2 ->
  start nodes i1 + e1 + laps k1 (total nodes) ==
  start nodes i2 + e2 + laps k2 (total nodes) ->
  i1 = i2 /\ e1 == e2.
Proof.
  intros Hi1 Hi2 He1 He1' He2 He2' Heq.
  pose proof total_pos as HT.
  pose proof (start_S Hi1) as HS1. pose proof (start_S Hi2) as HS2.
  pose proof (@start_mono (S i1) n ltac:(lia)) as Hm1.
  pose proof (@start_mono (S i2) n ltac:(lia)) as Hm2.
  pose proof (@start_nonneg i1 ltac:(lia)) as Hn1.
  pose proof (@start_nonneg i2 ltac:(lia)) as Hn2.
  rewrite start_n in Hm1, Hm2.
  assert (Hk : k1 = k2).
  { destruct (lt_eq_lt_dec k1 k2) as [[Hlt|Heqk]|Hgt]; [|assumption|].
    - pose proof (@laps_lt k1 k2 (total nodes) ltac:(Lqa.lra) Hlt). Lqa.lra.
    - pose proof (@laps_lt k2 k1 (total nodes) ltac:(Lqa.lra) Hgt). Lqa.lra. }
  subst k2.
  destruct (lt_eq_lt_dec i1 i2) as [[Hlt|Heqi]|Hgt].
  - pose proof (@start_mono (S i1) i2 ltac:(lia)). Lqa.lra.
  - subst i2. split; [reflexivity|Lqa.lra].
  - pose proof (@start_mono (S i2) i1 ltac:(lia)). Lqa.lra.
Qed.

(** *** The loops of [get_next_position] *)

Lemma getitem2_field (i j : nat) :
  (i < n)%nat -> (j < 3)%nat -> getitem2 nodes i j = Ret (field nodes i j).
Proof.
  intros Hi Hj. unfold getitem2, getitem, field.
  rewrite (nth_error_nth' nodes [] Hi). cbn [bind].
  rewrite (nth_error_nth' (nth i nodes []) 0); [reflexivity|].
  now rewrite (arity Hi).
Qed.

Lemma mod_lt_n (i : nat) : (Nat.modulo i n < n)%nat.
Proof. apply Nat.mod_upper_bound. pose proof n_pos. lia. Qed.

Lemma go_next_spec (self : state (F:=Q)) :
  consistent nodes self ->
  exists self',
    _go_to_next_index self = Ret self' /\
    consistent nodes self' /\
    index self' = Nat.modulo (index self + 1) n /\
    time self' = time self /\
    last_pos self' = last_pos self /\
    curr_pos self' = curr_pos self.
Proof.
  intros (Hnodes & Hidx & Hnext & Htarget & Hlen).
  unfold _go_to_next_index.
  fields. rewrite Hnodes, Hnext.
  rewrite getitem2_field by (try apply mod_lt_n; lia).
  cbn [bind]. eexists. split; [reflexivity|].
  rewrite next_index_mod by apply mod_lt_n.
  unfold consistent. fields. split_and; try reflexivity; try assumption.
  apply mod_lt_n.
Qed.

Lemma skip_zero_unfold (fuel : nat) (self : state (F:=Q)) :
  skip_zero_loop fuel self =
  if Qeq_bool (target_time self) 0 then
    match fuel with
    | O => OutOfFuel
    | S fuel => bind (_go_to_next_index self) (skip_zero_loop fuel)
    end
  else Ret self.
Proof. destruct fuel; reflexivity. Qed.

Lemma overshoot_unfold (fuel : nat) (r : Q) (self : state (F:=Q)) :
  overshoot_loop fuel r self =
  if Qle_bool (target_time self) r then
    match fuel with
    | O => OutOfFuel
    | S fuel =>
        bind (_go_to_next_index self)
          (overshoot_loop fuel
             (if negb (Qle_bool 0 (r - target_time self)) then 0
              else r - target_time self))
    end
  else Ret (r, self).
Proof. destruct fuel; reflexivity. Qed.

Lemma Qle_bool_false (a b : Q) : Qle_bool a b = false <-> b < a.
Proof.
  split.
  - intros E. apply Qnot_le_lt. intros Hle. apply Qle_bool_iff in Hle. congruence.
  - intros Hlt. destruct (Qle_bool a b) eqn:E; [|reflexivity].
    apply Qle_bool_iff in E. Lqa.lra.
Qed.

Lemma Qeq_bool_false (a b : Q) : Qeq_bool a b = false <-> ~ a == b.
Proof.
  split.
  - apply Qeq_bool_neq.
  - intros Hne. destruct (Qeq_bool a b) eqn:E; [|reflexivity].
    apply Qeq_bool_iff in E. contradiction.
Qed.

Lemma skip_zero_settled (fuel : nat) (self : state (F:=Q)) :
  0 < target_time self -> skip_zero_loop fuel self = Ret self.
Proof.
  intros Hpos. rewrite skip_zero_unfold.
  replace (Qeq_bool (target_time self) 0) with false; [reflexivity|].
  symmetry. apply Qeq_bool_false. intros E. rewrite E in Hpos. Lqa.lra.
Qed.

(** The skip loop stops, at a segment of positive duration that begins
    at the same point of the lap. *)
Lemma skip_zero_spec (K d : nat) :
  forall self : state (F:=Q),
    consistent nodes self ->
    (n - index self = d)%nat ->
    start nodes (index self) < laps K T ->
    exists self',
      (forall fuel, (K * n + d <= fuel)%nat -> skip_zero_loop fuel self = Ret self') /\
      consistent nodes self' /\
      0 < target_time self' /\
      time self' = time self /\
      last_pos self' = last_pos self /\
      curr_pos self' = curr_pos self /\
      exists k, start nodes (index self) == start nodes (index self') + laps k T.
Proof.
  revert d. induction K as [|K IHK]; intros d self Hc Hd Hlt.
  { destruct Hc as (_ & Hidx & _). cbn [laps] in Hlt.
    pose proof (@start_nonneg (index self) ltac:(lia)). Lqa.lra. }
  revert self Hc Hd Hlt. induction d as [|d IHd]; intros self Hc Hd Hlt.
  { destruct Hc as (_ & Hidx & _). lia. }
  destruct (Qeq_bool (target_time self) 0) eqn:Hz.
  - apply Qeq_bool_iff in Hz.
    destruct (go_next_spec Hc) as (self1 & Hgo & Hc1 & Hi1 & Ht1 & Hl1 & Hp1).
    pose proof Hc as (_ & Hidx & _ & Htarget & _).
    pose proof (start_S Hidx) as HS. rewrite <- Htarget, Hz in HS.
    destruct (Nat.eq_dec (index self + 1) n) as [Hwrap|Hin].
    + (* the cycle wraps *)
      rewrite Hwrap, Nat.Div0.mod_same in Hi1.
      assert (HT : start nodes (index self) == T).
      { rewrite <- start_n. replace n with (S (index self)) by lia.
        Lqa.lra. }
      destruct (IHK n self1 Hc1) as (self' & Hrun & Hc' & Hpos & Ht' & Hl' & Hp' & k & Hk).
      * rewrite Hi1. lia.
      * rewrite Hi1, start_0. cbn [laps] in Hlt. Lqa.lra.
      * exists self'. split_and; try assumption; try congruence.
        -- intros [|fuel] Hfuel; [lia|]. rewrite skip_zero_unfold.
           apply Qeq_bool_iff in Hz. rewrite Hz, Hgo. cbn [bind].
           apply Hrun. lia.
        -- exists (S k). rewrite Hi1, start_0 in Hk. cbn [laps]. Lqa.lra.
    + destruct (IHd self1 Hc1) as (self' & Hrun & Hc' & Hpos & Ht' & Hl' & Hp' & k & Hk).
      * rewrite Hi1, Nat.mod_small by lia. lia.
      * rewrite Hi1, Nat.mod_small by lia.
        replace (index self + 1)%nat with (S (index self)) by lia. Lqa.lra.
      * exists self'. split_and; try assumption; try congruence.
        -- intros [|fuel] Hfuel; [lia|]. rewrite skip_zero_unfold.
           apply Qeq_bool_iff in Hz. rewrite Hz, Hgo. cbn [bind].
           apply Hrun. lia.
        -- exists k. rewrite Hi1, Nat.mod_small in Hk by lia.
           replace (index self + 1)%nat with (S (index self)) in Hk by lia.
           Lqa.lra.
  - apply Qeq_bool_false in Hz. exists self.
    pose proof Hc as (_ & Hidx & _ & Htarget & _).
    pose proof (dur_nonneg (index self)) as Hnn. rewrite <- Htarget in Hnn.
    assert (Hpos : 0 < target_time self).
    { apply Qnot_le_lt. intros Hle. apply Hz. Lqa.lra. }
    split_and; try assumption; try reflexivity.
    + intros fuel _. now apply skip_zero_settled.
    + exists 0%nat. cbn [laps]. Lqa.lra.
Qed.

(** The overshoot loop stops, in a segment of positive duration, with a
    remaining step that lies inside it; the point of the lap reached is
    the one the remaining step pointed at. *)
Lemma overshoot_spec (K d : nat) :
  forall (self : state (F:=Q)) (r : Q),
    consistent nodes self ->
    (n - index self = d)%nat ->
    0 <= r ->
    start nodes (index self) + r < laps K T ->
    exists r' self',
      (forall fuel, (K * n + d <= fuel)%nat ->
         overshoot_loop fuel r self = Ret (r', self')) /\
      consistent nodes self' /\
      0 <= r' /\
      r' < target_time self' /\
      time self' = time self /\
      last_pos self' = last_pos self /\
      curr_pos self' = curr_pos self /\
      exists k, start nodes (index self) + r ==
                start nodes (index self') + r' + laps k T.
Proof.
  revert d. induction K as [|K IHK]; intros d self r Hc Hd Hr Hlt.
  { destruct Hc as (_ & Hidx & _). cbn [laps] in Hlt.
    pose proof (@start_nonneg (index self) ltac:(lia)). Lqa.lra. }
  revert self r Hc Hd Hr Hlt. induction d as [|d IHd]; intros self r Hc Hd Hr Hlt.
  { destruct Hc as (_ & Hidx & _). lia. }
  destruct (Qle_bool (target_time self) r) eqn:Hge.
  - apply Qle_bool_iff in Hge.
    destruct (go_next_spec Hc) as (self1 & Hgo & Hc1 & Hi1 & Ht1 & Hl1 & Hp1).
    pose proof Hc as (_ & Hidx & _ & Htarget & _).
    pose proof (start_S Hidx) as HS. rewrite <- Htarget in HS.
    assert (Hclamp : (if negb (Qle_bool 0 (r - target_time self)) then 0
                      else r - target_time self) = r - target_time self).
    { replace (Qle_bool 0 (r - target_time self)) with true; [reflexivity|].
      symmetry. apply Qle_bool_iff. Lqa.lra. }
    destruct (Nat.eq_dec (index self + 1) n) as [Hwrap|Hin].
    + (* the cycle wraps *)
      rewrite Hwrap, Nat.Div0.mod_same in Hi1.
      assert (HT : start nodes (index self) + target_time self == T).
      { rewrite <- start_n. replace n with (S (index self)) by lia. Lqa.lra. }
      destruct (IHK n self1 (r - target_time self) Hc1)
        as (r' & self' & Hrun & Hc' & Hr0 & Hr1 & Ht' & Hl' & Hp' & k & Hk).
      * rewrite Hi1. lia.
      * Lqa.lra.
      * rewrite Hi1, start_0. cbn [laps] in Hlt. Lqa.lra.
      * exists r', self'. split_and; try assumption; try congruence.
        -- intros [|fuel] Hfuel; [lia|]. rewrite overshoot_unfold.
           apply Qle_bool_iff in Hge. rewrite Hge, Hgo, Hclamp. cbn [bind].
           apply Hrun. lia.
        -- exists (S k). rewrite Hi1, start_0 in Hk. cbn [laps]. Lqa.lra.
    + destruct (IHd self1 (r - target_time self) Hc1)
        as (r' & self' & Hrun & Hc' & Hr0 & Hr1 & Ht' & Hl' & Hp' & k & Hk).
      * rewrite Hi1, Nat.mod_small by lia. lia.
      * Lqa.lra.
      * rewrite Hi1, Nat.mod_small by lia.
        replace (index self + 1)%nat with (S (index self)) by lia. Lqa.lra.
      * exists r', self'. split_and; try assumption; try congruence.
        -- intros [|fuel] Hfuel; [lia|]. rewrite overshoot_unfold.
           apply Qle_bool_iff in Hge. rewrite Hge, Hgo, Hclamp. cbn [bind].
           apply Hrun. lia.
        -- exists k. rewrite Hi1, Nat.mod_small in Hk by lia.
           replace (index self + 1)%nat with (S (index self)) in Hk by lia.
           Lqa.lra.
  - pose proof Hge as Hlt'. apply Qle_bool_false in Hlt'.
    exists r, self. split_and; try assumption; try reflexivity.
    + intros fuel _. rewrite overshoot_unfold. now rewrite Hge.
    + exists 0%nat. cbn [laps]. Lqa.lra.
Qed.

(** *** One call of [get_next_position] *)

Lemma get_next_position_unfold (fuel : nat) (self : state (F:=Q)) (step : Q) :
  get_next_position fuel self step =
  bind (skip_zero_loop fuel self) (fun self =>
  bind (if Qle_bool (target_time self) (time self + step) then
          bind (_go_to_next_index self) (fun self1 =>
          bind (overshoot_loop fuel (step - (target_time self - time self)) self1)
            (fun p => Ret (set_time (snd p) (fst p))))
        else Ret (set_time self (time self + step))) (fun self =>
  bind (getitem2 (InterpolatedTrajectory.nodes self) (index self) 0) (fun start_x =>
  bind (getitem2 (InterpolatedTrajectory.nodes self) (next_index self) 0) (fun next_x =>
  bind (getitem2 (InterpolatedTrajectory.nodes self) (index self) 1) (fun start_y =>
  bind (getitem2 (InterpolatedTrajectory.nodes self) (next_index self) 1) (fun next_y =>
  bind (truediv ((next_x - start_x) * time self) (target_time self)) (fun off_x =>
  bind (truediv ((next_y - start_y) * time self) (target_time self)) (fun off_y =>
  Ret (set_curr_pos (set_last_pos self (curr_pos self))
                    [start_x + off_x; start_y + off_y],
       [start_x + off_x; start_y + off_y]))))))))).
Proof.
  unfold get_next_position.
  destruct (skip_zero_loop fuel self) as [self1| |]; cbn [bind]; try reflexivity.
  change (leb (target_time self1) (add (time self1) step))
    with (Qle_bool (target_time self1) (time self1 + step)).
  destruct (Qle_bool (target_time self1) (time self1 + step));
    cbn [bind]; [|reflexivity].
  destruct (_go_to_next_index self1) as [self2| |]; cbn [bind]; try reflexivity.
  destruct (overshoot_loop fuel _ self2) as [[r self3]| |]; reflexivity.
Qed.

(** The interpolation at the end of [get_next_position], for a state
    inside a segment of positive duration. *)
Lemma interpolation_spec (self : state (F:=Q)) :
  consistent nodes self -> 0 < target_time self ->
  bind (getitem2 (InterpolatedTrajectory.nodes self) (index self) 0) (fun start_x =>
  bind (getitem2 (InterpolatedTrajectory.nodes self) (next_index self) 0) (fun next_x =>
  bind (getitem2 (InterpolatedTrajectory.nodes self) (index self) 1) (fun start_y =>
  bind (getitem2 (InterpolatedTrajectory.nodes self) (next_index self) 1) (fun next_y =>
  bind (truediv ((next_x - start_x) * time self) (target_time self)) (fun off_x =>
  bind (truediv ((next_y - start_y) * time self) (target_time self)) (fun off_y =>
  Ret (set_curr_pos (set_last_pos self (curr_pos self))
                    [start_x + off_x; start_y + off_y],
       [start_x + off_x; start_y + off_y])))))))
  = Ret (set_curr_pos (set_last_pos self (curr_pos self))
                      (interpolate nodes (index self) (time self)),
         interpolate nodes (index self) (time self)).
Proof.
  intros (Hnodes & Hidx & Hnext & Htarget & Hlen) Hpos.
  rewrite Hnodes, Hnext.
  rewrite !getitem2_field by (try apply mod_lt_n; lia).
  cbn [bind]. unfold truediv.
  change (eqb (target_time self) (of_int 0)) with (Qeq_bool (target_time self) 0).
  replace (Qeq_bool (target_time self) 0) with false.
  2:{ symmetry. apply Qeq_bool_false. intros E. rewrite E in Hpos. Lqa.lra. }
  cbn [bind]. unfold interpolate. rewrite Htarget. reflexivity.
Qed.

(** One call from a valid state, with a non-negative step: it returns,
    the new state is settled, and it is [step] further along the lap. *)
Lemma advance_spec (self : state (F:=Q)) (step : Q) :
  valid nodes self -> 0 <= step ->
  exists self',
    (exists fuel0, forall fuel, (fuel0 <= fuel)%nat ->
       get_next_position fuel self step = Ret (self', curr_pos self')) /\
    consistent nodes self' /\
    settled self' /\
    last_pos self' = curr_pos self /\
    curr_pos self' = interpolate nodes (index self') (time self') /\
    exists k, phase nodes self + step == phase nodes self' + laps k T.
Proof.
  intros [Hc Hstate] Hstep.
  pose proof total_pos as HT.
  (* the skip loop *)
  destruct (laps_archimedean (start nodes (index self)) HT) as [K1 HK1].
  destruct (@skip_zero_spec K1 (n - index self) self Hc eq_refl HK1)
    as (self1 & Hrun1 & Hc1 & Hpos1 & Ht1 & Hl1 & Hp1 & k1 & Hk1).
  assert (Htime1 : 0 <= time self1 /\ time self1 < target_time self1).
  { rewrite Ht1. destruct Hstate as [(Hp & H0 & H1)|[H0 H1]].
    - assert (E : self1 = self).
      { specialize (Hrun1 _ (Nat.le_refl _)).
        rewrite skip_zero_settled in Hrun1 by assumption. congruence. }
      rewrite E. now split.
    - rewrite H0. split; [Lqa.lra|assumption]. }
  destruct Htime1 as [Htime1 Htime1'].
  pose proof Hc1 as (Hnodes1 & Hidx1 & Hnext1 & Htarget1 & Hlen1).
  destruct (Qle_bool (target_time self1) (time self1 + step)) eqn:Hcross.
  - (* the step reaches the end of the segment *)
    apply Qle_bool_iff in Hcross.
    destruct (go_next_spec Hc1) as (self2 & Hgo & Hc2 & Hi2 & Ht2 & Hl2 & Hp2).
    set (r0 := step - (target_time self1 - time self1)).
    assert (Hr0 : 0 <= r0) by (unfold r0; Lqa.lra).
    destruct (laps_archimedean (start nodes (index self2) + r0) HT) as [K2 HK2].
    destruct (@overshoot_spec K2 (n - index self2) self2 r0 Hc2 eq_refl Hr0 HK2)
      as (r' & self3 & Hrun3 & Hc3 & Hr3 & Hr3' & Ht3 & Hl3 & Hp3 & k3 & Hk3).
    pose proof Hc3 as (Hnodes3 & Hidx3 & Hnext3 & Htarget3 & Hlen3).
    assert (Hc4 : consistent nodes (set_time self3 r')).
    { unfold consistent. fields. now split_and. }
    exists (set_curr_pos (set_last_pos (set_time self3 r') (curr_pos self3))
              (interpolate nodes (index self3) r')).
    split_and.
    + exists (Nat.max (K1 * n + (n - index self)) (K2 * n + (n - index self2))).
      intros fuel Hfuel. rewrite get_next_position_unfold.
      rewrite Hrun1 by lia. cbn [bind].
      apply Qle_bool_iff in Hcross. rewrite Hcross, Hgo. cbn [bind].
      fold r0. rewrite Hrun3 by lia. cbn [bind fst snd].
      rewrite (interpolation_spec Hc4) by (fields; Lqa.lra).
      reflexivity.
    + unfold consistent. fields. now split_and.
    + unfold settled. fields. split_and; Lqa.lra.
    + fields. congruence.
    + reflexivity.
    + destruct (start_next Hidx1) as [k2 Hk2].
      rewrite <- Htarget1, <- Hi2 in Hk2.
      exists (k1 + (k2 + k3))%nat. unfold phase. fields.
      rewrite !laps_add. rewrite <- Ht1. unfold r0 in Hk3. Lqa.lra.
  - (* the step stays inside the segment *)
    pose proof Hcross as Hin. apply Qle_bool_false in Hin.
    assert (Hc4 : consistent nodes (set_time self1 (time self1 + step))).
    { unfold consistent. fields. now split_and. }
    exists (set_curr_pos
              (set_last_pos (set_time self1 (time self1 + step)) (curr_pos self1))
              (interpolate nodes (index self1) (time self1 + step))).
    split_and.
    + exists (K1 * n + (n - index self))%nat.
      intros fuel Hfuel. rewrite get_next_position_unfold.
      rewrite Hrun1 by lia. cbn [bind]. rewrite Hcross. cbn [bind].
      rewrite (interpolation_spec Hc4) by (fields; Lqa.lra).
      reflexivity.
    + unfold consistent. fields. now split_and.
    + unfold settled. fields. split_and; Lqa.lra.
    + fields. congruence.
    + reflexivity.
    + exists k1. unfold phase. fields. rewrite <- Ht1. Lqa.lra.
Qed.

(** *** The constructor and sequences of calls *)

Lemma init_spec :
  exists self0 : state (F:=Q),
    __init__ nodes = Ret self0 /\
    valid nodes self0 /\
    index self0 = 0%nat /\
    time self0 = 0 /\
    curr_pos self0 = [field nodes 0 0; field nodes 0 1].
Proof.
  pose proof WF as (Hlen & Hnn & Hex).
  unfold __init__. rewrite (check_nodes_ok (nodes:=nodes) false) by exact Hlen.
  assert (Hfound : existsb nonzero_time nodes = true).
  { apply existsb_exists. apply Exists_exists in Hex.
    destruct Hex as [nd [Hin Hpos]]. exists nd. split; [assumption|].
    rewrite Forall_forall in Hlen. specialize (Hlen nd Hin).
    destruct nd as [|x [|y [|d [|? ?]]]]; try discriminate Hlen.
    unfold nonzero_time. cbn [nth_error]. cbn [duration nth] in Hpos.
    change (eqb d (of_int 0)) with (Qeq_bool d 0).
    replace (Qeq_bool d 0) with false; [reflexivity|].
    symmetry. apply Qeq_bool_false. intros E. rewrite E in Hpos. Lqa.lra. }
  rewrite Hfound. cbn [bind orb negb].
  pose proof n_pos as Hn. pose proof (arity Hn) as Har.
  pose proof (dur_nonneg 0) as Hd.
  unfold getitem at 1. rewrite (nth_error_nth' nodes [] Hn). cbn [bind].
  unfold field.
  destruct (nth 0 nodes []) as [|x [|y [|d [|? ?]]]] eqn:E0; try discriminate Har.
  cbn [getitem nth_error bind firstn nth]. cbn [duration nth] in Hd.
  eexists. split; [reflexivity|].
  split_and; try reflexivity.
  split.
  - unfold consistent. fields. split_and; try reflexivity.
    + assumption.
    + now apply next_index_mod.
    + now rewrite E0.
  - fields. change (of_int 0) with 0.
    destruct (Qle_bool d 0) eqn:E.
    + apply Qle_bool_iff in E. right. split; Lqa.lra.
    + apply Qle_bool_false in E. left. unfold settled. fields. split_and; Lqa.lra.
Qed.

Lemma settled_valid (self : state (F:=Q)) :
  consistent nodes self -> settled self -> valid nodes self.
Proof. intros Hc Hs. split; [assumption|now left]. Qed.

(** A sequence of calls with non-negative steps returns; the state ends
    up the sum of the steps further along the lap. *)
Lemma advance_all_spec (steps : list Q) :
  forall self : state (F:=Q),
    valid nodes self -> Forall nonneg steps ->
    exists self',
      (exists fuel0, forall fuel, (fuel0 <= fuel)%nat ->
         advance_all fuel self steps = Ret self') /\
      valid nodes self' /\
      (steps <> [] ->
         settled self' /\
         curr_pos self' = interpolate nodes (index self') (time self')) /\
      exists k, phase nodes self + sumQ steps == phase nodes self' + laps k T.
Proof.
  induction steps as [|step steps IH]; intros self Hv Hall.
  - exists self. split_and.
    + exists 0%nat. reflexivity.
    + assumption.
    + intros Hne. now elim Hne.
    + exists 0%nat. cbn [sumQ laps]. Lqa.lra.
  - inversion Hall as [|? ? Hstep Hsteps]; subst. unfold nonneg in Hstep.
    destruct (advance_spec Hv Hstep)
      as (self1 & [fuel1 Hrun1] & Hc1 & Hs1 & Hl1 & Hp1 & k1 & Hk1).
    destruct (IH self1 (settled_valid Hc1 Hs1) Hsteps)
      as (self2 & [fuel2 Hrun2] & Hv2 & Hpos2 & k2 & Hk2).
    exists self2. split_and.
    + exists (Nat.max fuel1 fuel2). intros fuel Hfuel.
      cbn [advance_all]. rewrite Hrun1 by lia. cbn [bind]. apply Hrun2. lia.
    + assumption.
    + intros _. destruct steps as [|s steps'].
      * specialize (Hrun2 fuel2 (Nat.le_refl _)). cbn [advance_all] in Hrun2.
        injection Hrun2 as <-. now split.
      * apply Hpos2. discriminate.
    + exists (k1 + k2)%nat. cbn [sumQ]. rewrite laps_add. Lqa.lra.
Qed.

(** Two settled states at the same point of the lap are in the same
    segment at the same time. *)
Lemma same_phase (self1 self2 : state (F:=Q)) (k1 k2 : nat) :
  consistent nodes self1 -> settled self1 ->
  consistent nodes self2 -> settled self2 ->
  phase nodes self1 + laps k1 T == phase nodes self2 + laps k2 T ->
  index self1 = index self2 /\ time self1 == time self2.
Proof.
  intros (_ & Hi1 & _ & Ht1 & _) (_ & Ha1 & Hb1) (_ & Hi2 & _ & Ht2 & _)
         (_ & Ha2 & Hb2) Heq.
  rewrite Ht1 in Hb1. rewrite Ht2 in Hb2.
  apply (@phase_unique (index self1) (index self2) k1 k2); assumption.
Qed.

(** Leaving segment [i] and crossing [m - 1] segments of duration zero
    leads to the start of segment [i + m]. *)
Lemma zero_run_start (i m : nat) :
  (i < n)%nat -> (1 <= m)%nat ->
  (forall k, (1 <= k < m)%nat -> dur (Nat.modulo (i + k) n) == 0) ->
  exists k, start nodes i + dur i ==
            start nodes (Nat.modulo (i + m) n) + laps k T.
Proof.
  intros Hi Hm. induction Hm as [|m Hm IH]; intros Hzero.
  - apply (start_next Hi).
  - destruct IH as [k Hk]; [intros j Hj; apply Hzero; lia|].
    destruct (@start_next (Nat.modulo (i + m) n) (mod_lt_n _)) as [k' Hk'].
    rewrite (Hzero m) in Hk' by lia.
    rewrite Nat.Div0.add_mod_idemp_l in Hk'.
    replace (i + m + 1)%nat with (i + S m)%nat in Hk' by lia.
    exists (k + k')%nat. rewrite laps_add. Lqa.lra.
Qed.

(** *** Closed loop, zero-duration runs and termination *)

(** C2, as amended: for a waypoint list that satisfies the invariant
    ([WF]), in exact arithmetic, two non-empty sequences of
    non-negative steps with the same total leave the interpolator at the
    same position; when the total is the sum of all durations, that
    position is the one of the first waypoint with a positive duration,
    which is the starting position when the first waypoint of the list has
    a positive duration. *)
Theorem closed_loop_exact (steps1 steps2 : list Q) :
  Forall nonneg steps1 -> Forall nonneg steps2 ->
  steps1 <> [] -> steps2 <> [] ->
  sumQ steps1 == sumQ steps2 ->
  exists (self0 self1 self2 : state (F:=Q)) (fuel0 : nat),
    __init__ nodes = Ret self0 /\
    (forall fuel, (fuel0 <= fuel)%nat ->
       advance_all fuel self0 steps1 = Ret self1 /\
       advance_all fuel self0 steps2 = Ret self2) /\
    pos_eq (curr_pos self1) (curr_pos self2) /\
    (sumQ steps1 == T ->
       pos_eq (curr_pos self1)
              [field nodes (first_positive nodes) 0;
               field nodes (first_positive nodes) 1] /\
       (0 < dur 0 -> pos_eq (curr_pos self1) (curr_pos self0))).
Proof.
  intros Hnn1 Hnn2 Hne1 Hne2 Hsum.
  destruct init_spec as (self0 & Hinit & Hv0 & Hi0 & Ht0 & Hp0).
  destruct (advance_all_spec Hv0 Hnn1)
    as (self1 & [fuel1 Hrun1] & Hv1 & Hs1 & k1 & Hk1).
  destruct (advance_all_spec Hv0 Hnn2)
    as (self2 & [fuel2 Hrun2] & Hv2 & Hs2 & k2 & Hk2).
  destruct (Hs1 Hne1) as [Hset1 Hpos1]. destruct (Hs2 Hne2) as [Hset2 Hpos2].
  destruct Hv1 as [Hc1 _]. destruct Hv2 as [Hc2 _].
  assert (Hph0 : phase nodes self0 == 0).
  { unfold phase. rewrite Hi0, Ht0, start_0. Lqa.lra. }
  exists self0, self1, self2, (Nat.max fuel1 fuel2). split_and.
  - assumption.
  - intros fuel Hfuel. split; [apply Hrun1|apply Hrun2]; lia.
  - destruct (@same_phase self1 self2 k1 k2 Hc1 Hset1 Hc2 Hset2) as [Hi He].
    { Lqa.lra. }
    rewrite Hpos1, Hpos2, Hi. now apply interpolate_proper.
  - intros Htotal.
    pose proof WF as (_ & Hnn & Hex).
    destruct (first_positive_spec Hnn Hex) as (Hfp & Hdfp & Hsfp).
    pose proof Hc1 as (_ & Hidx1 & _ & Htg1 & _).
    pose proof Hset1 as (_ & Ha1 & Hb1). rewrite Htg1 in Hb1.
    destruct (@phase_unique (index self1) (first_positive nodes) k1 1
                (time self1) 0) as [Hi He]; try assumption; try Lqa.lra.
    { unfold phase in Hk1, Hph0. cbn [laps]. rewrite Hi0, Ht0 in Hk1, Hph0.
      Lqa.lra. }
    assert (Hfirst : pos_eq (curr_pos self1)
                       [field nodes (first_positive nodes) 0;
                        field nodes (first_positive nodes) 1]).
    { rewrite Hpos1, Hi. unfold interpolate, pos_eq.
      constructor; [rewrite He; unfold Qdiv; ring|].
      constructor; [rewrite He; unfold Qdiv; ring|]. constructor. }
    split; [exact Hfirst|].
    intros Hd0.
    destruct (@phase_unique 0 (first_positive nodes) 0 0 0 0)
      as [Hz _]; try assumption; try Lqa.lra.
    { apply n_pos. }
    { rewrite start_0, Hsfp. Lqa.lra. }
    rewrite Hp0. rewrite <- Hz in Hfirst. exact Hfirst.
Qed.

(** Landing after a run of zero durations, in exact arithmetic: for a
    waypoint list that satisfies the invariant ([WF]), from a valid state,
    a call whose step is at least the time left in the current segment,
    and whose excess is less than the duration of the first segment of
    positive duration reached, skips the segments of duration zero in
    between and lands in that segment, with elapsed time the excess: zero
    when the step is exactly the time that was left. *)
Theorem zero_run_skipped (self : state (F:=Q)) (step : Q) (m : nat) :
  valid nodes self ->
  next_positive nodes (index self) m ->
  remaining self <= step ->
  step - remaining self < dur (Nat.modulo (index self + m) n) ->
  exists self' : state (F:=Q),
    (exists fuel0, forall fuel, (fuel0 <= fuel)%nat ->
       get_next_position fuel self step = Ret (self', curr_pos self')) /\
    index self' = Nat.modulo (index self + m) n /\
    0 < target_time self' /\
    time self' == step - remaining self /\
    (step == remaining self -> time self' == 0).
Proof.
  intros Hv (Hm & Hzero & Hpos) Hreach Hexcess.
  pose proof Hv as [Hc Hstate].
  pose proof Hc as (_ & Hidx & _ & Htg & _).
  assert (Hrem : 0 <= remaining self).
  { unfold remaining. destruct Hstate as [(_ & _ & H1)|[H0 H1]]; Lqa.lra. }
  assert (Hstep : 0 <= step) by Lqa.lra.
  destruct (advance_spec Hv Hstep)
    as (self' & Hrun & Hc' & Hs' & _ & _ & k & Hk).
  destruct (zero_run_start Hidx Hm Hzero) as [k' Hk'].
  pose proof Hc' as (_ & Hidx' & _ & Htg' & _).
  pose proof Hs' as (Hp' & Ha' & Hb').
  assert (Hb'' : time self' < dur (index self')) by now rewrite <- Htg'.
  destruct (@phase_unique (index self') (Nat.modulo (index self + m) n) k k'
              (time self') (step - remaining self))
    as [Hi He]; try assumption; try Lqa.lra.
  { apply mod_lt_n. }
  { unfold phase, remaining in *. rewrite Htg in *. Lqa.lra. }
  exists self'. split_and; try assumption.
  intros E. rewrite He, E. Lqa.lra.
Qed.

(** In exact arithmetic, from a valid state and for a non-negative step,
    [get_delta] returns: some amount of fuel covers the turns of both
    loops, and any larger amount gives the same result; the new state is
    settled again. *)
Lemma get_delta_returns_exact (self : state (F:=Q)) (step : Q) :
  valid nodes self -> 0 <= step ->
  exists (self' : state (F:=Q)) (delta : Q * Q) (fuel0 : nat),
    (forall fuel, (fuel0 <= fuel)%nat ->
       get_delta fuel self step = Ret (self', delta)) /\
    valid nodes self' /\ settled self'.
Proof.
  intros Hv Hstep.
  destruct (advance_spec Hv Hstep)
    as (self' & [fuel0 Hrun] & Hc' & Hs' & Hl' & Hp' & _).
  destruct Hv as [(_ & _ & _ & _ & Hlen) _].
  destruct (curr_pos self) as [|a [|b [|? ?]]] eqn:Ecurr; try discriminate Hlen.
  unfold interpolate in Hp'.
  eexists self', _, fuel0. split_and.
  - intros fuel Hfuel. unfold get_delta. rewrite (Hrun fuel Hfuel).
    cbn [bind]. rewrite Hp', Hl'. cbn [getitem nth_error bind]. reflexivity.
  - now apply settled_valid.
  - assumption.
Qed.

(** *** Inside a segment, and around the lap *)

(** A step that does not reach the end of the segment only adds to the
    elapsed time; no loop takes a turn. *)
Lemma stay_in_segment (fuel : nat) (self : state (F:=Q)) (step : Q) :
  consistent nodes self -> 0 < target_time self ->
  time self + step < target_time self ->
  get_next_position fuel self step =
  Ret (set_curr_pos
         (set_last_pos (set_time self (time self + step)) (curr_pos self))
         (interpolate nodes (index self) (time self + step)),
       interpolate nodes (index self) (time self + step)).
Proof.
  intros Hc Hpos Hin.
  rewrite get_next_position_unfold, skip_zero_settled by assumption.
  cbn [bind].
  replace (Qle_bool (target_time self) (time self + step)) with false
    by (symmetry; now apply Qle_bool_false).
  cbn [bind].
  assert (Hc' : consistent nodes (set_time self (time self + step))).
  { unfold consistent in *. fields. tauto. }
  now rewrite (interpolation_spec Hc') by (fields; assumption).
Qed.

(** X4: inside a segment the interpolator moves at constant speed: a
    non-negative step that does not reach the end of the segment returns
    the delta (next waypoint - current waypoint) * step / duration, in
    each coordinate. *)
Theorem constant_speed_in_segment (self : state (F:=Q)) (step : Q) :
  consistent nodes self -> settled self ->
  pos_eq (curr_pos self) (interpolate nodes (index self) (time self)) ->
  0 <= step -> time self + step < target_time self ->
  exists (self' : state (F:=Q)) (delta : Q * Q),
    (forall fuel, get_delta fuel self step = Ret (self', delta)) /\
    index self' = index self /\
    settled self' /\
    fst delta == (field nodes (next_index self) 0 - field nodes (index self) 0)
                 * (step / target_time self) /\
    snd delta == (field nodes (next_index self) 1 - field nodes (index self) 1)
                 * (step / target_time self).
Proof.
  intros Hc (Hpos & Ht0 & Ht1) Hcurr Hstep Hin.
  pose proof Hc as (_ & _ & Hnext & Htarget & _).
  unfold pos_eq, interpolate in Hcurr.
  destruct (curr_pos self) as [|l0 [|l1 [|? ?]]] eqn:Ecurr;
    try (exfalso; inversion Hcurr as [|? ? ? ? _ Hrest]; subst;
         inversion Hrest as [|? ? ? ? _ Hrest']; subst; inversion Hrest'; fail);
    try (exfalso; inversion Hcurr; fail).
  inversion Hcurr as [|? ? ? ? Hl0 Hrest]; subst.
  inversion Hrest as [|? ? ? ? Hl1 _]; subst.
  eexists. eexists. split_and.
  - intros fuel. unfold get_delta.
    rewrite stay_in_segment by assumption. cbn [bind]. fields.
    unfold interpolate. rewrite Ecurr. cbn [getitem nth_error bind]. reflexivity.
  - reflexivity.
  - unfold settled. fields. split_and; [assumption|Lqa.lra|assumption].
  - cbn [fst]. change (sub ?a ?b) with (a - b). rewrite Hl0, Hnext.
    change (field nodes (index self) 2) with (dur (index self)).
    rewrite <- Htarget. field. intros E. rewrite E in Hpos. Lqa.lra.
  - cbn [snd]. change (sub ?a ?b) with (a - b). rewrite Hl1, Hnext.
    change (field nodes (index self) 2) with (dur (index self)).
    rewrite <- Htarget. field. intros E. rewrite E in Hpos. Lqa.lra.
Qed.

(** X7: a negative step is not walked back across waypoints: from a
    settled state the segment stays the current one, the elapsed time
    decreases by the step and becomes negative when the step is larger
    than the time spent in the segment; the position is then extrapolated
    on the line of the segment, before its waypoint. *)
Theorem negative_step_stays (self : state (F:=Q)) (step : Q) :
  consistent nodes self -> settled self -> step < 0 ->
  exists self' : state (F:=Q),
    (forall fuel, get_next_position fuel self step = Ret (self', curr_pos self')) /\
    index self' = index self /\
    time self' = time self + step /\
    curr_pos self' = interpolate nodes (index self) (time self + step) /\
    (time self + step < 0 -> ~ settled self').
Proof.
  intros Hc (Hpos & Ht0 & Ht1) Hneg.
  exists (set_curr_pos
            (set_last_pos (set_time self (time self + step)) (curr_pos self))
            (interpolate nodes (index self) (time self + step))).
  split_and.
  - intros fuel. rewrite stay_in_segment by (try assumption; Lqa.lra).
    reflexivity.
  - reflexivity.
  - reflexivity.
  - reflexivity.
  - fields. intros Hlt (_ & H0 & _). revert H0. fields. Lqa.lra.
Qed.

(** X5: after a call from a valid state with a non-negative step, the
    position lies on the segment from the current waypoint to the next
    one: it is the current waypoint plus a fraction in [[0, 1)] of the way
    to the next. *)
Theorem position_on_segment (self : state (F:=Q)) (step : Q) :
  valid nodes self -> 0 <= step ->
  exists (self' : state (F:=Q)) (fraction : Q),
    (exists fuel0, forall fuel, (fuel0 <= fuel)%nat ->
       get_next_position fuel self step = Ret (self', curr_pos self')) /\
    0 <= fraction /\ fraction < 1 /\
    pos_eq (curr_pos self')
      [field nodes (index self') 0
       + (field nodes (next_index self') 0 - field nodes (index self') 0) * fraction;
       field nodes (index self') 1
       + (field nodes (next_index self') 1 - field nodes (index self') 1) * fraction].
Proof.
  intros Hv Hstep.
  destruct (advance_spec Hv Hstep)
    as (self' & Hrun & Hc' & (Hpos & Ht0 & Ht1) & _ & Hcurr & _).
  pose proof Hc' as (_ & _ & Hnext & Htarget & _).
  assert (Hne : ~ target_time self' == 0).
  { intros E. rewrite E in Hpos. Lqa.lra. }
  exists self', (time self' / target_time self'). split_and.
  - exact Hrun.
  - apply Qle_shift_div_l; [assumption|Lqa.lra].
  - apply Qlt_shift_div_r; [assumption|Lqa.lra].
  - rewrite Hcurr, Hnext. unfold interpolate, pos_eq.
    change (field nodes (index self') 2) with (dur (index self')).
    rewrite <- Htarget.
    constructor; [field; exact Hne|]. constructor; [field; exact Hne|].
    constructor.
Qed.

(** X6: the motion is periodic, with period the sum of the durations: two
    non-empty sequences of non-negative steps whose totals differ by a
    whole number of laps leave the interpolator at the same position. *)
Theorem lap_periodic (steps1 steps2 : list Q) (k : nat) :
  Forall nonneg steps1 -> Forall nonneg steps2 ->
  steps1 <> [] -> steps2 <> [] ->
  sumQ steps1 == sumQ steps2 + laps k T ->
  exists (self0 self1 self2 : state (F:=Q)) (fuel0 : nat),
    __init__ nodes = Ret self0 /\
    (forall fuel, (fuel0 <= fuel)%nat ->
       advance_all fuel self0 steps1 = Ret self1 /\
       advance_all fuel self0 steps2 = Ret self2) /\
    index self1 = index self2 /\
    time self1 == time self2 /\
    pos_eq (curr_pos self1) (curr_pos self2).
Proof.
  intros Hnn1 Hnn2 Hne1 Hne2 Hsum.
  destruct init_spec as (self0 & Hinit & Hv0 & _).
  destruct (advance_all_spec Hv0 Hnn1)
    as (self1 & [fuel1 Hrun1] & [Hc1 _] & Hs1 & k1 & Hk1).
  destruct (advance_all_spec Hv0 Hnn2)
    as (self2 & [fuel2 Hrun2] & [Hc2 _] & Hs2 & k2 & Hk2).
  destruct (Hs1 Hne1) as [Hset1 Hpos1]. destruct (Hs2 Hne2) as [Hset2 Hpos2].
  destruct (@same_phase self1 self2 k1 (k2 + k) Hc1 Hset1 Hc2 Hset2) as [Hi He].
  { rewrite laps_add. Lqa.lra. }
  exists self0, self1, self2, (Nat.max fuel1 fuel2). split_and; try assumption.
  - intros fuel Hfuel. split; [apply Hrun1|apply Hrun2]; lia.
  - rewrite Hpos1, Hpos2, Hi. now apply interpolate_proper.
Qed.

End Nodes.
End CycleFacts.

(** ** Concrete runs *)

Section ConcreteExact.
Import InterpolatedTrajectory Cycle.
Local Open Scope Q_scope.

Lemma square_well_formed : well_formed square.
Proof.
  unfold well_formed, square. split_and.
  - repeat constructor.
  - repeat constructor; cbn [duration nth]; Lqa.lra.
  - constructor. cbn [duration nth]. Lqa.lra.
Qed.

Lemma cusp_well_formed : well_formed cusp.
Proof.
  unfold well_formed, cusp. split_and.
  - repeat constructor.
  - repeat constructor; cbn [duration nth]; Lqa.lra.
  - constructor. cbn [duration nth]. Lqa.lra.
Qed.

Lemma cusp_start_valid : valid cusp cusp_start.
Proof.
  split.
  - unfold consistent. split_and; try reflexivity. cbn. lia.
  - left. unfold settled. cbn [cusp_start target_time time]. split_and; Lqa.lra.
Qed.

Lemma closed_loop_exact_witness :
  exists (self0 self1 self2 : state (F:=Q)) (fuel0 : nat),
    __init__ square = Ret self0 /\
    (forall fuel, (fuel0 <= fuel)%nat ->
       advance_all fuel self0
         [1 # 2; 1 # 2; 1 # 2; 1 # 2; 1 # 2; 1 # 2; 1 # 2; 1 # 2] = Ret self1 /\
       advance_all fuel self0 [1; 3] = Ret self2) /\
    pos_eq (curr_pos self1) (curr_pos self2) /\
    pos_eq (curr_pos self1) (curr_pos self0).
Proof.
  destruct (@closed_loop_exact square square_well_formed
              [1 # 2; 1 # 2; 1 # 2; 1 # 2; 1 # 2; 1 # 2; 1 # 2; 1 # 2] [1; 3])
    as (self0 & self1 & self2 & fuel0 & Hinit & Hrun & Hsame & Hloop).
  - repeat constructor; unfold nonneg; Lqa.lra.
  - repeat constructor; unfold nonneg; Lqa.lra.
  - discriminate.
  - discriminate.
  - reflexivity.
  - exists self0, self1, self2, fuel0. split_and; try assumption.
    apply Hloop; [reflexivity|]. cbn [square duration nth]. Lqa.lra.
Defined.

Lemma zero_run_skipped_witness :
  exists self' : state (F:=Q),
    (exists fuel0, forall fuel, (fuel0 <= fuel)%nat ->
       get_next_position fuel cusp_start 1 = Ret (self', curr_pos self')) /\
    index self' = 2%nat /\
    0 < target_time self' /\
    time self' == 0.
Proof.
  destruct (@zero_run_skipped cusp cusp_well_formed cusp_start 1 2)
    as (self' & Hrun & Hidx & Hpos & _ & Hzero).
  - exact cusp_start_valid.
  - unfold next_positive. split_and.
    + lia.
    + intros k Hk. replace k with 1%nat by lia. reflexivity.
    + cbn [cusp cusp_start index length Nat.add Nat.modulo Nat.divmod fst snd
           Nat.sub duration nth]. Lqa.lra.
  - unfold remaining. cbn [cusp_start target_time time]. Lqa.lra.
  - unfold remaining.
    cbn [cusp cusp_start target_time time index length Nat.add Nat.modulo
         Nat.divmod fst snd Nat.sub duration nth]. Lqa.lra.
  - exists self'. split_and; try assumption. apply Hzero. reflexivity.
Defined.
End ConcreteExact.

(** ** Runs in binary64 *)

Section Binary64.
Import InterpolatedTrajectory.
Local Open Scope float_scope.

Lemma skip_zero_done (fuel : nat) (self : state (F:=float)) :
  PrimFloat.eqb (target_time self) 0 = false ->
  skip_zero_loop fuel self = Ret self.
Proof.
  intros E. destruct fuel; cbn [skip_zero_loop];
    change (eqb (target_time self) (of_int 0))
      with (PrimFloat.eqb (target_time self) 0);
    now rewrite E.
Qed.

Lemma overshoot_done (fuel : nat) (r : float) (self : state (F:=float)) :
  PrimFloat.leb (target_time self) r = false ->
  overshoot_loop fuel r self = Ret (r, self).
Proof.
  intros E. destruct fuel; cbn [overshoot_loop];
    change (leb (target_time self) r) with (PrimFloat.leb (target_time self) r);
    now rewrite E.
Qed.

Lemma overshoot_again (fuel : nat) (r : float) (self self' : state (F:=float)) :
  PrimFloat.leb (target_time self) r = true ->
  PrimFloat.ltb (r - target_time self) 0 = false ->
  _go_to_next_index self = Ret self' ->
  overshoot_loop (S fuel) r self = overshoot_loop fuel (r - target_time self) self'.
Proof.
  intros E1 E2 E3. cbn [overshoot_loop].
  change (leb (target_time self) r) with (PrimFloat.leb (target_time self) r).
  change (ltb (sub r (target_time self)) (of_int 0))
    with (PrimFloat.ltb (r - target_time self) 0).
  now rewrite E1, E2, E3.
Qed.

(** C4: in binary64 the elapsed time can become negative, and a segment
    of duration zero can be current at the interpolation.  After
    [time = below_one] in a segment of duration 1, the step [half_gap]
    makes [time + step] round to 1, so the segment is left, with
    [remaining_step = half_gap - (1 - below_one) = - half_gap]; the clamp
    to zero sits inside the overshoot loop, which is not entered.  On
    [two_sides] the call returns with a negative [time]; on [cusp_float]
    the next segment has duration zero, the loop test
    [remaining_step >= 0] fails, and the division by [target_time]
    raises. *)
Theorem negative_residue_not_clamped :
  PrimFloat.leb 0 below_one = true /\
  PrimFloat.leb 0 half_gap = true /\
  (exists (self0 self1 self2 : state (F:=float)) (p1 p2 : list float),
     __init__ two_sides = Ret self0 /\
     (forall fuel, get_next_position fuel self0 below_one = Ret (self1, p1)) /\
     (forall fuel, get_next_position fuel self1 half_gap = Ret (self2, p2)) /\
     time self1 = below_one /\
     PrimFloat.leb (target_time self1) (time self1 + half_gap) = true /\
     time self2 = (- half_gap) /\
     PrimFloat.ltb (time self2) 0 = true) /\
  (exists (self0 self1 : state (F:=float)) (p1 : list float),
     __init__ cusp_float = Ret self0 /\
     (forall fuel, get_next_position fuel self0 below_one = Ret (self1, p1)) /\
     (forall fuel, get_next_position fuel self1 half_gap = Raise ZeroDivisionError)).
Proof.
  split; [reflexivity|]. split; [reflexivity|]. split.
  - do 5 eexists. split_and.
    + reflexivity.
    + intros fuel. unfold get_next_position.
      rewrite skip_zero_done by reflexivity. cbn [bind]. vm_compute. reflexivity.
    + intros fuel. unfold get_next_position.
      rewrite skip_zero_done by reflexivity. cbn [bind].
      match goal with
      | |- context [if ?c then _ else _] =>
          replace c with true by (vm_compute; reflexivity)
      end.
      match goal with
      | |- context [_go_to_next_index ?s] =>
          let r := eval vm_compute in (_go_to_next_index s) in
          change (_go_to_next_index s) with r
      end.
      cbn [bind]. rewrite overshoot_done by (vm_compute; reflexivity).
      vm_compute. reflexivity.
    + reflexivity.
    + vm_compute. reflexivity.
    + vm_compute. reflexivity.
    + vm_compute. reflexivity.
  - do 3 eexists. split_and.
    + reflexivity.
    + intros fuel. unfold get_next_position.
      rewrite skip_zero_done by reflexivity. cbn [bind]. vm_compute. reflexivity.
    + intros fuel. unfold get_next_position.
      rewrite skip_zero_done by reflexivity. cbn [bind].
      match goal with
      | |- context [if ?c then _ else _] =>
          replace c with true by (vm_compute; reflexivity)
      end.
      match goal with
      | |- context [_go_to_next_index ?s] =>
          let r := eval vm_compute in (_go_to_next_index s) in
          change (_go_to_next_index s) with r
      end.
      cbn [bind]. rewrite overshoot_done by (vm_compute; reflexivity).
      vm_compute. reflexivity.
Qed.


(** C5, as stated, fails in binary64: on the single waypoint [(0, 0, 1)]
    the step [1e17] never returns.  [1e17 - 1] rounds to [1e17], so each
    turn of the overshoot loop leaves [remaining_step] as it was. *)
Lemma huge_step_never_returns :
  exists self0 : state (F:=float),
    __init__ unit_loop = Ret self0 /\
    PrimFloat.ltb 0 (target_time self0) = true /\
    PrimFloat.leb 0 1e17 = true /\
    forall fuel, get_delta fuel self0 1e17 = OutOfFuel.
Proof.
  eexists. split_and; try reflexivity.
  intros fuel. unfold get_delta, get_next_position.
  rewrite skip_zero_done by reflexivity. cbn [bind].
  match goal with
  | |- context [if ?c then _ else _] =>
      replace c with true by (vm_compute; reflexivity)
  end.
  match goal with
  | |- context [_go_to_next_index ?s] =>
      let r := eval vm_compute in (_go_to_next_index s) in
      change (_go_to_next_index s) with r
  end.
  cbn [bind].
  match goal with
  | |- context [overshoot_loop fuel ?r ?s] =>
      assert (Hloop : forall f, overshoot_loop f 1e17 s = OutOfFuel);
      [|replace r with 1e17 by (vm_compute; reflexivity); now rewrite Hloop]
  end.
  induction f as [|f IH]; [reflexivity|].
  erewrite overshoot_again; [|reflexivity|reflexivity|reflexivity].
  exact IH.
Qed.
End Binary64.

Section ClosedLoopFails.
Import InterpolatedTrajectory Cycle.

(** C2, as stated, fails, in two ways.

    In any arithmetic: the list [(0,0,0), (5,5,1)] satisfies the invariant
    and one step of 1 is the sum of its durations, but the interpolator
    starts at (0,0) and ends at (5,5), having skipped the first waypoint.

    In binary64: the list [(0,0,1), (5,5,0)] satisfies the invariant, and
    the steps [0.75, 2**-54, 2**-54, 0.25 - 2**-53] are non-negative
    numbers whose sum, as real numbers, is exactly the lap duration 1.
    One step of 1 ends the lap at (0,0), where the interpolator started.
    The four steps end at (4.9999999999999991, 4.9999999999999991):
    [0.75 + 2**-54] rounds to [0.75] twice, the elapsed time ends at
    [1 - 2**-53], and the end of the segment is not reached. *)
Lemma closed_loop_fails :
  (let nodes : list (list Q) := [[0; 0; 0]; [5; 5; 1]]%Q in
   let steps : list Q := [1]%Q in
   well_formed nodes /\
   Forall nonneg steps /\
   (sumQ steps == total nodes)%Q /\
   exists self0 self1 : state (F:=Q),
     __init__ nodes = Ret self0 /\
     (forall fuel, (2 <= fuel)%nat -> advance_all fuel self0 steps = Ret self1) /\
     curr_pos self0 = [0; 0]%Q /\
     curr_pos self1 = [5; 5]%Q /\
     ~ pos_eq (curr_pos self1) (curr_pos self0)) /\
  (let exact := map (map float_value) side_and_stop in
   well_formed exact /\
   Forall nonneg (map float_value split_lap) /\
   (sumQ (map float_value split_lap) == total exact)%Q /\
   (float_value 1 == total exact)%Q /\
   exists self0 self1 self2 : state (F:=float),
     __init__ side_and_stop = Ret self0 /\
     (forall fuel, (2 <= fuel)%nat ->
        advance_all fuel self0 split_lap = Ret self1) /\
     (forall fuel, (2 <= fuel)%nat ->
        advance_all fuel self0 [1%float] = Ret self2) /\
     curr_pos self0 = [0; 0]%float /\
     curr_pos self1 = [0x1.3ffffffffffffp+2; 0x1.3ffffffffffffp+2]%float /\
     curr_pos self2 = [0; 0]%float /\
     PrimFloat.ltb 4 0x1.3ffffffffffffp+2 = true).
Proof.
  split.
  - intros nodes steps. split_and.
    + unfold well_formed, nodes. split_and.
      * repeat constructor.
      * repeat constructor; cbn [duration nth]; Lqa.lra.
      * apply Exists_cons_tl. constructor. cbn [duration nth]. Lqa.lra.
    + repeat constructor. unfold nonneg. Lqa.lra.
    + reflexivity.
    + eexists. eexists. split_and.
      * reflexivity.
      * intros [|[|fuel]] Hfuel; [lia|lia|]. vm_compute. reflexivity.
      * reflexivity.
      * reflexivity.
      * cbn [curr_pos]. intros Heq. inversion Heq as [|? ? ? ? Hx _]; subst.
        revert Hx. vm_compute. discriminate.
  - intros exact. split_and.
    + unfold well_formed, exact. split_and.
      * repeat constructor.
      * repeat constructor; vm_compute; discriminate.
      * constructor. vm_compute. reflexivity.
    + repeat constructor; vm_compute; discriminate.
    + vm_compute. reflexivity.
    + vm_compute. reflexivity.
    + do 3 eexists. split_and.
      * reflexivity.
      * intros [|[|fuel]] Hfuel; [lia|lia|]. vm_compute. reflexivity.
      * intros [|[|fuel]] Hfuel; [lia|lia|]. vm_compute. reflexivity.
      * reflexivity.
      * vm_compute. reflexivity.
      * reflexivity.
      * reflexivity.
Qed.
End ClosedLoopFails.

Section EllipticBinary64.
Local Open Scope float_scope.

(** C8, as stated, fails in binary64, whatever the sine and cosine of the
    C library are: from a sampler with finite rotation and phase,
    [get_delta(inf)] raises [ValueError], since [math.cos] is called on
    the phase [0 + inf]; and [get_delta(float_max)] returns and leaves the
    phase at [float_max] (subtracting [1000 * PI] rounds back), so that a
    second [get_delta(float_max)], a finite step, raises as well:
    [float_max + float_max] is infinite. *)
Lemma get_delta_infinite_raises :
  PrimFloat.is_infinity (EllipticTrajectory.rotation sampler_float) = false /\
  PrimFloat.is_infinity (EllipticTrajectory.t sampler_float) = false /\
  PrimFloat.is_infinity float_max = false /\
  forall libm_sin libm_cos : float -> float,
    let trig := Trig_float libm_sin libm_cos in
    EllipticCalls.get_delta sampler_float infinity = Raise ValueError /\
    exists (self1 : EllipticTrajectory.state (F:=float)) (d : float * float),
      EllipticCalls.get_delta sampler_float float_max = Ret (self1, d) /\
      EllipticTrajectory.t self1 = float_max /\
      EllipticCalls.get_delta self1 float_max = Raise ValueError.
Proof.
  split_and; try reflexivity.
  intros libm_sin libm_cos trig. split; [reflexivity|].
  do 2 eexists. split_and.
  - rewrite elliptic_call_get_delta.
    replace (math.isinf _ || math.isinf _)%bool with false
      by (vm_compute; reflexivity).
    rewrite elliptic_get_delta_unfold. reflexivity.
  - vm_compute. reflexivity.
  - rewrite elliptic_call_get_delta.
    replace (math.isinf _ || math.isinf _)%bool with true
      by (vm_compute; reflexivity).
    reflexivity.
Qed.
End EllipticBinary64.

Section MainBinary64.
Local Open Scope py_scope.

(** X13: in binary64, whatever the sine and cosine of the C library are,
    [math.sin] and [math.cos] do not raise during the run of [main]: the
    two constructors of the elliptic samplers return, the phase of each
    sampler is finite at each of its 3000 calls of [get_delta], and the
    run of [main] with the methods as calls has the outcome of the run
    with their values. *)
Theorem main_math_calls_return :
  forall libm_sin libm_cos : float -> float,
    let trig := Trig_float libm_sin libm_cos in
    let ELLIPSE_SCALE : float := of_int 2 * math.PI in
    let step : float := Main.decimal 5 1000 in
    let et_1 := EllipticTrajectory.__init__
                  (div math.PI (of_int 4)) (of_int 200) (of_int 25) in
    let et_2 := EllipticTrajectory.__init__
                  (div (of_int 3 * math.PI) (of_int 4)) (of_int 200) (of_int 25) in
    EllipticCalls.__init__ (div math.PI (of_int 4)) (of_int 200) (of_int 25)
      = Ret et_1 /\
    EllipticCalls.__init__ (div (of_int 3 * math.PI) (of_int 4))
                           (of_int 200) (of_int 25)
      = Ret et_2 /\
    phases_finite 3000 et_1 (step * ELLIPSE_SCALE) = true /\
    phases_finite 3000 et_2 (step * ELLIPSE_SCALE) = true /\
    forall fuel : nat,
      MainCalls.main (F:=float) fuel = Main.main (F:=float) fuel.
Proof.
  intros libm_sin libm_cos trig ELLIPSE_SCALE step et_1 et_2.
  assert (Hinit1 : EllipticCalls.__init__ (div math.PI (of_int 4))
                     (of_int 200) (of_int 25) = Ret et_1) by reflexivity.
  assert (Hinit2 : EllipticCalls.__init__ (div (of_int 3 * math.PI) (of_int 4))
                     (of_int 200) (of_int 25) = Ret et_2) by reflexivity.
  assert (Hfin1 : phases_finite 3000 et_1 (step * ELLIPSE_SCALE) = true)
    by (vm_compute; reflexivity).
  assert (Hfin2 : phases_finite 3000 et_2 (step * ELLIPSE_SCALE) = true)
    by (vm_compute; reflexivity).
  split_and; try assumption.
  intros fuel. unfold MainCalls.main, Main.main.
  rewrite Hinit1, Hinit2. cbn [bind].
  destruct (InterpolatedTrajectory.__init__ Main.HEART_NODES) as [parent|e|];
    cbn [bind]; [|reflexivity|reflexivity].
  destruct (getitem (InterpolatedTrajectory.curr_pos parent) 0) as [parent_0|e|];
    cbn [bind]; [|reflexivity|reflexivity].
  destruct (getitem (InterpolatedTrajectory.curr_pos parent) 1) as [parent_1|e|];
    cbn [bind]; [|reflexivity|reflexivity].
  change (200 * 15)%nat with 3000%nat.
  apply sampling_loop_calls; assumption.
Qed.
End MainBinary64.

(** ** Termination of an advance *)

(** C5, as amended: for a waypoint list that the constructor accepts, the
    zero-duration skip loop stops within [len(nodes)] turns, whatever the
    arithmetic; and in exact arithmetic, for a list that satisfies the
    invariant, a valid state and a non-negative step, [get_delta] returns:
    some amount of fuel covers the turns of both loops and any larger
    amount gives the same result. *)
Theorem advance_terminates :
  (forall (F : Type) (N : Num F) (nodes : list (list F))
          (self : InterpolatedTrajectory.state (F:=F)),
      accepted nodes -> positioned nodes self ->
      exists self',
        (forall fuel, (length nodes <= fuel)%nat ->
           InterpolatedTrajectory.skip_zero_loop fuel self = Ret self') /\
        eqb (InterpolatedTrajectory.target_time self') (of_int 0) = false) /\
  (forall (nodes : list (list Q)) (self : InterpolatedTrajectory.state (F:=Q))
          (step : Q),
      Cycle.well_formed nodes -> Cycle.valid nodes self -> (0 <= step)%Q ->
      exists (self' : InterpolatedTrajectory.state (F:=Q)) (delta : Q * Q)
             (fuel0 : nat),
        (forall fuel, (fuel0 <= fuel)%nat ->
           InterpolatedTrajectory.get_delta fuel self step = Ret (self', delta)) /\
        Cycle.valid nodes self' /\ Cycle.settled self').
Proof.
  split.
  - intros F N nodes self Hacc Hpos.
    destruct (skip_zero_terminates Hacc Hpos) as (self' & Hrun & _ & Hnz).
    exists self'. now split.
  - intros nodes self step Hwf Hv Hstep.
    exact (get_delta_returns_exact Hwf Hv Hstep).
Qed.

Lemma advance_terminates_witness :
  (exists self' : InterpolatedTrajectory.state (F:=float),
     (forall fuel, (length cusp_float <= fuel)%nat ->
        InterpolatedTrajectory.skip_zero_loop fuel
          (InterpolatedTrajectory.mk cusp_float 1 2 0%float [0; 0]%float
             [0; 0]%float 0%float) = Ret self') /\
     eqb (InterpolatedTrajectory.target_time self') (of_int 0) = false) /\
  (exists (self' : InterpolatedTrajectory.state (F:=Q)) (delta : Q * Q)
          (fuel0 : nat),
     (forall fuel, (fuel0 <= fuel)%nat ->
        InterpolatedTrajectory.get_delta fuel cusp_start
          (100000000000000000 # 1)%Q = Ret (self', delta)) /\
     Cycle.valid cusp self' /\ Cycle.settled self').
Proof.
  split.
  - apply (proj1 advance_terminates float Num_float cusp_float).
    + split.
      * repeat constructor.
      * exists [0; 0; 1]%float. split; [now left|reflexivity].
    + unfold positioned. fields. split_and; try reflexivity. cbn. lia.
  - apply (proj2 advance_terminates cusp cusp_start).
    + exact cusp_well_formed.
    + exact cusp_start_valid.
    + unfold Qle. cbn. lia.
Defined.

(** ** Negative durations *)

Section NegativeDurations.
Import InterpolatedTrajectory Cycle.
Local Open Scope Q_scope.

Variable nodes : list (list Q).
Hypothesis NEG : all_negative nodes.

Lemma all_negative_accepted : accepted nodes.
Proof.
  destruct NEG as (Hne & Hlen & Hneg). split; [assumption|].
  destruct nodes as [|nd rest] eqn:E; [now elim Hne|].
  exists nd. split; [now left|].
  inversion Hlen as [|? ? Hnd _]; subst. inversion Hneg as [|? ? Hd _]; subst.
  destruct nd as [|x [|y [|d [|? ?]]]]; try discriminate Hnd.
  unfold nonzero_time. cbn [nth_error]. cbn [duration nth] in Hd.
  change (eqb d (of_int 0)) with (Qeq_bool d 0).
  replace (Qeq_bool d 0) with false; [reflexivity|].
  symmetry. apply Qeq_bool_false. intros E'. rewrite E' in Hd. Lqa.lra.
Qed.

Lemma positioned_negative (self : state (F:=Q)) :
  positioned nodes self -> target_time self < 0.
Proof.
  intros (_ & Hidx & _ & Htarget).
  destruct NEG as (_ & Hlen & Hneg).
  unfold getitem2, getitem in Htarget.
  rewrite (nth_error_nth' nodes [] Hidx) in Htarget. cbn [bind] in Htarget.
  rewrite Forall_forall in Hlen, Hneg.
  pose proof (Hlen _ (nth_In nodes [] Hidx)) as Hl.
  pose proof (Hneg _ (nth_In nodes [] Hidx)) as Hd.
  destruct (nth (index self) nodes []) as [|x [|y [|d [|? ?]]]];
    try discriminate Hl.
  cbn [nth_error] in Htarget. injection Htarget as <-. exact Hd.
Qed.

Lemma overshoot_never_returns (fuel : nat) :
  forall (r : Q) (self : state (F:=Q)),
    positioned nodes self -> 0 <= r -> overshoot_loop fuel r self = OutOfFuel.
Proof.
  induction fuel as [|fuel IH]; intros r self Hp Hr;
    pose proof (positioned_negative Hp) as Hneg;
    rewrite overshoot_unfold;
    replace (Qle_bool (target_time self) r) with true
      by (symmetry; apply Qle_bool_iff; Lqa.lra).
  - reflexivity.
  - destruct (go_next_positioned all_negative_accepted Hp)
      as (self1 & Hgo & Hp1 & _).
    rewrite Hgo. cbn [bind].
    replace (Qle_bool 0 (r - target_time self)) with true
      by (symmetry; apply Qle_bool_iff; Lqa.lra).
    cbn [negb]. apply IH; [assumption|Lqa.lra].
Qed.

(** X8: a list whose durations are all negative passes the constructor,
    and then, in exact arithmetic, no call of [get_next_position] with a
    non-negative step returns: the overshoot loop subtracts a negative
    duration from [remaining_step] at every turn. *)
Theorem negative_durations_never_return :
  exists self0 : state (F:=Q),
    __init__ nodes = Ret self0 /\
    forall (step : Q) (fuel : nat),
      0 <= step -> get_next_position fuel self0 step = OutOfFuel.
Proof.
  destruct (init_accepted all_negative_accepted)
    as (self0 & Hinit & Hp & _ & Htime & _).
  exists self0. split; [assumption|]. intros step fuel Hstep.
  pose proof (positioned_negative Hp) as Hneg.
  change (of_int 0) with 0 in Htime.
  rewrite get_next_position_unfold, skip_zero_unfold.
  replace (Qeq_bool (target_time self0) 0) with false.
  2:{ symmetry. apply Qeq_bool_false. intros E. rewrite E in Hneg. Lqa.lra. }
  cbn [bind].
  replace (Qle_bool (target_time self0) (time self0 + step)) with true
    by (symmetry; apply Qle_bool_iff; rewrite Htime; Lqa.lra).
  destruct (go_next_positioned all_negative_accepted Hp)
    as (self1 & Hgo & Hp1 & _).
  rewrite Hgo. cbn [bind].
  rewrite overshoot_never_returns; [reflexivity|assumption|].
  rewrite Htime. Lqa.lra.
Qed.
End NegativeDurations.

(** ** Instances of the further properties *)

Section MoreInstances.
Import InterpolatedTrajectory Cycle.

Lemma cusp_float_accepted : accepted cusp_float.
Proof.
  split.
  - repeat constructor.
  - exists [0; 0; 1]%float. split; [now left|reflexivity].
Qed.

Lemma cusp_float_waiting_positioned : positioned cusp_float cusp_float_waiting.
Proof. unfold positioned. fields. split_and; try reflexivity. cbn. lia. Qed.

Lemma get_next_position_in_range_witness :
  match get_next_position 3 cusp_float_waiting below_one with
  | Ret (self', p) =>
      positioned cusp_float self' /\ p = curr_pos self' /\ length p = 2%nat
  | Raise e => e = ZeroDivisionError
  | OutOfFuel => True
  end.
Proof.
  apply (get_next_position_in_range cusp_float_accepted 3 below_one
           cusp_float_waiting_positioned).
Defined.

Lemma go_to_next_index_cycles_witness :
  (exists self',
     go_next_times 7 cusp_float_waiting = Ret self' /\
     index self' = Nat.modulo (1 + 7) 3 /\
     (index self' < 3)%nat) /\
  go_next_times 3 cusp_float_waiting = Ret cusp_float_waiting.
Proof.
  apply (go_to_next_index_cycles cusp_float_accepted 7
           cusp_float_waiting_positioned).
Defined.

Lemma interpolated_get_delta_spec_witness :
  exists (self' : state (F:=Q)) (x' y' : Q),
    get_next_position 2 cusp_start (3 # 2) = Ret (self', [x'; y']) /\
    curr_pos self' = [x'; y'] /\
    last_pos self' = [0; 0]%Q /\
    get_delta 2 cusp_start (3 # 2) = Ret (self', (x' - 0, y' - 0)%Q).
Proof.
  destruct (get_delta 2 cusp_start (3 # 2)) as [[self' delta]| |] eqn:E;
    [|vm_compute in E; discriminate E|vm_compute in E; discriminate E].
  destruct (interpolated_get_delta_spec 2 cusp_start (3 # 2)
              (x := 0%Q) (y := 0%Q) eq_refl E)
    as (x' & y' & Hnext & Hcurr & Hlast & Hdelta).
  exists self', x', y'. rewrite Hdelta. now split_and.
Defined.

Local Open Scope Q_scope.

Lemma cusp_half_consistent : consistent cusp cusp_half.
Proof. unfold consistent. split_and; try reflexivity. cbn. lia. Qed.

Lemma cusp_half_settled : settled cusp_half.
Proof.
  unfold settled. cbn [cusp_half target_time time]. split_and; Lqa.lra.
Qed.

Lemma constant_speed_in_segment_witness :
  exists (self' : state (F:=Q)) (delta : Q * Q),
    (forall fuel, get_delta fuel cusp_half (1 # 4) = Ret (self', delta)) /\
    index self' = 0%nat /\
    fst delta == 1 # 4 /\
    snd delta == 0.
Proof.
  destruct (@constant_speed_in_segment cusp cusp_well_formed cusp_half (1 # 4))
    as (self' & delta & Hrun & Hidx & _ & Hx & Hy).
  - exact cusp_half_consistent.
  - exact cusp_half_settled.
  - unfold pos_eq. repeat constructor; reflexivity.
  - Lqa.lra.
  - cbn [cusp_half target_time time]. Lqa.lra.
  - exists self', delta. split_and; try assumption.
    eapply Qeq_trans; [exact Hy|]. vm_compute. reflexivity.
Defined.

Lemma negative_step_stays_witness :
  exists self' : state (F:=Q),
    (forall fuel,
       get_next_position fuel cusp_half (- (1)) = Ret (self', curr_pos self')) /\
    index self' = 0%nat /\
    time self' = (1 # 2) + - (1) /\
    ~ settled self'.
Proof.
  destruct (@negative_step_stays cusp cusp_well_formed cusp_half (- (1)))
    as (self' & Hrun & Hidx & Htime & _ & Hneg).
  - exact cusp_half_consistent.
  - exact cusp_half_settled.
  - Lqa.lra.
  - exists self'. split_and; try assumption.
    apply Hneg. cbn [cusp_half time]. Lqa.lra.
Defined.

Lemma position_on_segment_witness :
  exists (self' : state (F:=Q)) (fraction : Q),
    (exists fuel0, forall fuel, (fuel0 <= fuel)%nat ->
       get_next_position fuel cusp_start (3 # 2) = Ret (self', curr_pos self')) /\
    0 <= fraction /\ fraction < 1 /\
    pos_eq (curr_pos self')
      [field cusp (index self') 0
       + (field cusp (next_index self') 0 - field cusp (index self') 0) * fraction;
       field cusp (index self') 1
       + (field cusp (next_index self') 1 - field cusp (index self') 1) * fraction].
Proof.
  apply (@position_on_segment cusp cusp_well_formed cusp_start (3 # 2)).
  - exact cusp_start_valid.
  - Lqa.lra.
Defined.

Lemma lap_periodic_witness :
  exists (self0 self1 self2 : state (F:=Q)) (fuel0 : nat),
    __init__ square = Ret self0 /\
    (forall fuel, (fuel0 <= fuel)%nat ->
       advance_all fuel self0 [1; 8] = Ret self1 /\
       advance_all fuel self0 [1 # 2; 1 # 2] = Ret self2) /\
    index self1 = index self2 /\
    time self1 == time self2 /\
    pos_eq (curr_pos self1) (curr_pos self2).
Proof.
  apply (@lap_periodic square square_well_formed [1; 8] [1 # 2; 1 # 2] 2).
  - repeat constructor; unfold nonneg; Lqa.lra.
  - repeat constructor; unfold nonneg; Lqa.lra.
  - discriminate.
  - discriminate.
  - reflexivity.
Defined.

Lemma backwards_all_negative : all_negative backwards.
Proof.
  unfold all_negative, backwards. split_and.
  - discriminate.
  - repeat constructor.
  - constructor; [|constructor]. cbn [duration nth]. Lqa.lra.
Qed.

Lemma negative_durations_never_return_witness :
  exists self0 : state (F:=Q),
    __init__ backwards = Ret self0 /\
    forall (step : Q) (fuel : nat),
      0 <= step -> get_next_position fuel self0 step = OutOfFuel.
Proof.
  apply (negative_durations_never_return backwards_all_negative).
Defined.
End MoreInstances.

Section RealInstance.
Local Open Scope R_scope.



End RealInstance.

